(** * Schema generation from decorated classes (tigris-client-ts)

    A shallow embedding of [src/schema/decorated-schema-processor.ts]:
    the field resolver ([getSchemaFields]), the recursive schema builder
    ([buildTigrisSchema], [buildNestedArray]), the option applicability
    table ([schemaOptions], [schemaOptionSupported]) and the primary-key
    augmenter ([addPrimaryKeys], [validatePrimaryKeysOrder]).

    Modelling conventions.
    - A JavaScript object is the list of its own properties in the order
      in which [Object.keys] enumerates them: the names that are array
      indices first, in ascending numeric order, then the other names in
      insertion order.  [prop_set] is property assignment on such a
      list.
    - Objects inherit from the built-in prototypes.  A [Realm] names the
      members that an object literal inherits from [Object.prototype]
      and those that an array inherits from [Array.prototype]; every
      such member is itself an object (a function), so it is truthy and
      an assignment to one of its properties succeeds without touching
      the schema.  The prototypes are the same throughout a run: the
      name [__proto__], through which an assignment reaches a prototype
      itself, is not the name of a field or of a primary key.
    - Option bags are only read by the names of the options, which no
      built-in prototype defines, so they are finite maps of their own
      properties.
    - Numbers that the code inspects ([arrayDepth], [order]) are
      integers.
    - The recursion of the builder follows the class graph.  It is
      driven by a fuel argument, the depth of call stack that is left;
      running out of it is the [RangeError] that the engine raises on
      stack overflow. *)

From Stdlib Require Import ZArith Ascii.
From stdpp Require Import base option list strings gmap.

#[local] Set Warnings "-clear-no-such-hyp".

Open Scope string_scope.
Open Scope Z_scope.
Open Scope list_scope.

(** ** Type tags *)

(** Modelled from the spec: the enumeration [TigrisDataTypes] is declared
    in [../types], which is not part of the sources at hand.  The
    constructors are the members the processor names, and [OTHER] stands
    for every further member of the enumeration (each member is a
    non-empty string at run time, hence truthy). *)
Inductive TigrisDataTypes : Type :=
  | STRING | BOOLEAN | INT32 | INT64 | NUMBER | NUMBER_BIGINT
  | DATE_TIME | ARRAY | OBJECT
  | OTHER (tag : string).

#[global] Instance TigrisDataTypes_eq_dec : EqDecision TigrisDataTypes.
Proof. solve_decision. Defined.

Definition tag_code (t : TigrisDataTypes) : nat + string :=
  match t with
  | STRING => inl 0%nat | BOOLEAN => inl 1%nat | INT32 => inl 2%nat
  | INT64 => inl 3%nat | NUMBER => inl 4%nat | NUMBER_BIGINT => inl 5%nat
  | DATE_TIME => inl 6%nat | ARRAY => inl 7%nat | OBJECT => inl 8%nat
  | OTHER s => inr s
  end.

Definition tag_decode (c : nat + string) : option TigrisDataTypes :=
  match c with
  | inl 0%nat => Some STRING | inl 1%nat => Some BOOLEAN
  | inl 2%nat => Some INT32 | inl 3%nat => Some INT64
  | inl 4%nat => Some NUMBER | inl 5%nat => Some NUMBER_BIGINT
  | inl 6%nat => Some DATE_TIME | inl 7%nat => Some ARRAY
  | inl 8%nat => Some OBJECT
  | inl _ => None
  | inr s => Some (OTHER s)
  end.

#[global] Program Instance TigrisDataTypes_countable : Countable TigrisDataTypes :=
  inj_countable tag_code tag_decode _.
Next Obligation. by intros []. Qed.

(** ** JavaScript values and objects *)

#[warnings="-register-all"]
Inductive JsVal : Type :=
  | VUndef
  | VNull
  | VBool (b : bool)
  | VNum (n : Z)
  | VStr (s : string)
  | VTag (t : TigrisDataTypes)
  | VArr (elems : list JsVal)
  | VObj (props : list (string * JsVal)).

(** The own properties of an object, in enumeration order. *)
Abbreviation Props := (list (string * JsVal)).

(** The array index that a property name denotes, if any: the canonical
    decimal numerals of the integers from 0 to 2^32 - 2. *)
Definition digit (c : ascii) : option N :=
  let n := N_of_ascii c in
  if (48 <=? n)%N && (n <=? 57)%N then Some (n - 48)%N else None.

Fixpoint numeral (s : string) (acc : N) : option N :=
  match s with
  | EmptyString => Some acc
  | String c rest => d ← digit c; numeral rest (10 * acc + d)%N
  end.

Definition array_index (k : string) : option N :=
  match k with
  | EmptyString => None
  | String c rest =>
      if bool_decide (c = "0"%char) && negb (bool_decide (rest = EmptyString))
      then None
      else n ← numeral k 0; if (n <=? 4294967294)%N then Some n else None
  end.

Section Properties.
Context {A : Type}.

(** [o[k]], on own properties *)
Fixpoint prop_get (k : string) (o : list (string * A)) : option A :=
  match o with
  | [] => None
  | (k', v) :: rest => if decide (k' = k) then Some v else prop_get k rest
  end.

(** [o.hasOwnProperty(k)] *)
Definition prop_has (k : string) (o : list (string * A)) : bool :=
  bool_decide (is_Some (prop_get k o)).

(** Assignment to an own property: the key keeps its position. *)
Fixpoint prop_replace (k : string) (v : A) (o : list (string * A))
    : list (string * A) :=
  match o with
  | [] => []
  | (k', v') :: rest =>
      if decide (k' = k) then (k, v) :: rest else (k', v') :: prop_replace k v rest
  end.

(** A new array index [n] goes after the smaller indices and before
    everything else. *)
Fixpoint prop_insert (n : N) (k : string) (v : A) (o : list (string * A))
    : list (string * A) :=
  match o with
  | [] => [(k, v)]
  | (k', v') :: rest =>
      match array_index k' with
      | Some n' =>
          if (n' <? n)%N then (k', v') :: prop_insert n k v rest else (k, v) :: o
      | None => (k, v) :: o
      end
  end.

(** [o[k] = v] where [k] is an own property of [o] or is not inherited
    through a setter: an own key is overwritten in place, a new array
    index is put in numeric order, any other new key goes last. *)
Definition prop_set (k : string) (v : A) (o : list (string * A))
    : list (string * A) :=
  if prop_has k o then prop_replace k v o
  else match array_index k with
       | Some n => prop_insert n k v o
       | None => o ++ [(k, v)]
       end.
End Properties.

(** ** Prototypes *)

(** The names that a lookup finds on the prototype chain: the members of
    [Object.prototype], which every object inherits, and those of
    [Array.prototype], which arrays inherit in addition. *)
Class Realm : Type := {
  Object_prototype : string → bool;
  Array_prototype : string → bool;
}.

(** The built-in members of the two prototypes. *)
Definition ecmascript : Realm :=
  {| Object_prototype k :=
       bool_decide (k ∈ ["constructor"; "hasOwnProperty"; "isPrototypeOf";
                         "propertyIsEnumerable"; "toLocaleString"; "toString";
                         "valueOf"; "__defineGetter__"; "__defineSetter__";
                         "__lookupGetter__"; "__lookupSetter__"]);
     Array_prototype k :=
       bool_decide (k ∈ ["at"; "concat"; "constructor"; "copyWithin"; "entries";
                         "every"; "fill"; "filter"; "find"; "findIndex";
                         "findLast"; "findLastIndex"; "flat"; "flatMap";
                         "forEach"; "includes"; "indexOf"; "join"; "keys";
                         "lastIndexOf"; "map"; "pop"; "push"; "reduce";
                         "reduceRight"; "reverse"; "shift"; "slice"; "some";
                         "sort"; "splice"; "toLocaleString"; "toReversed";
                         "toSorted"; "toSpliced"; "toString"; "unshift";
                         "values"; "with"]) |}.

Section Objects.
Context {realm : Realm}.

(** [key in schema], for an object literal [schema]. *)
Definition key_in (key : string) (schema : Props) : bool :=
  prop_has key schema || Object_prototype key.

(** [schema[key][attr] = v].  When [key] is an own property the
    assignment needs its value to be an object.  When it is not,
    [schema[key]] is the inherited member of that name, which takes the
    property and leaves the schema as it is, or [undefined], on which the
    assignment raises a [TypeError] ([None]). *)
Definition node_set (key attr : string) (v : JsVal) (schema : Props) : option Props :=
  match prop_get key schema with
  | Some (VObj node) => Some (prop_set key (VObj (prop_set attr v node)) schema)
  | Some _ => None
  | None => if Object_prototype key then Some schema else None
  end.
End Objects.

(** [Object.keys(o).length] *)
Definition keys_length (o : Props) : nat := length o.

(** ** Metadata records *)

(** A class reference.  The processor uses a class as a lookup key and
    reads its [name]; a class is identified with its name. *)
Definition ClassRef := string.
Definition Function_name (c : ClassRef) : string := c.

Abbreviation OptionBag := (gmap string JsVal).

(** [embedType]: absent, a scalar tag, or a class ([typeof ... === "function"]). *)
Inductive EmbedType : Type :=
  | NoEmbed
  | EmbedTag (t : TigrisDataTypes)
  | EmbedClass (c : ClassRef).

Module FieldMetadata.
Record t : Type := mk {
  name : string;
  type : TigrisDataTypes;
  embedType : EmbedType;
  arrayDepth : option Z;
  schemaFieldOptions : option OptionBag;
}.
(** [{ ...cf, schemaFieldOptions: fieldOption }] *)
Definition with_options (cf : t) (fieldOption : option OptionBag) : t :=
  mk (name cf) (type cf) (embedType cf) (arrayDepth cf) fieldOption.
End FieldMetadata.

Module PrimaryKeyOptions.
Record t : Type := mk {
  order : option Z;
  autoGenerate : option bool;
}.
End PrimaryKeyOptions.

Module PrimaryKeyMetadata.
Record t : Type := mk {
  name : string;
  type : TigrisDataTypes;
  options : option PrimaryKeyOptions.t;
}.
End PrimaryKeyMetadata.

Module CollectionMetadata.
Record t : Type := mk { target : ClassRef; collectionName : string }.
End CollectionMetadata.

Module IndexMetadata.
Record t : Type := mk { target : ClassRef; indexName : string }.
End IndexMetadata.

(** Modelled from the spec: the metadata store ([DecoratorMetaStorage],
    declared in [../decorators/metadata/decorator-meta-storage]) is a
    read-only lookup keyed by class identity that supplies, per class,
    the registered collection or index entry and the ordered sequences
    of field, search-field and primary-key descriptors. *)
Record DecoratorMetaStorage : Type := {
  getCollectionByTarget : ClassRef → option CollectionMetadata.t;
  getIndexByTarget : ClassRef → option IndexMetadata.t;
  getCollectionFieldsByTarget : ClassRef → list FieldMetadata.t;
  getSearchFieldsByTarget : ClassRef → list FieldMetadata.t;
  getPKsByTarget : ClassRef → list PrimaryKeyMetadata.t;
}.

Record DecoratedSchemaProcessor : Type := { storage : DecoratorMetaStorage }.

(** ** Outcomes *)

Inductive Error : Type :=
  | IncompletePrimaryKeyOrderError (field : string) (cls : string)
  | TypeError
  | RangeError (message : string).

#[global] Instance Error_eq_dec : EqDecision Error.
Proof. solve_decision. Defined.

(** The error of a call stack that is used up, and that of an array
    whose [length] is set to something that is not a length. *)
Definition stack_overflow : Error := RangeError "Maximum call stack size exceeded".
Definition invalid_array_length : Error := RangeError "Invalid array length".

(** A call returns a value or throws. *)
Inductive Res (A : Type) : Type :=
  | Ok (a : A)
  | Err (e : Error).
Arguments Ok {A} a.
Arguments Err {A} e.

#[global] Instance Res_ret : MRet Res := λ A a, Ok a.
#[global] Instance Res_bind : MBind Res := λ A B k r,
  match r with
  | Ok a => k a
  | Err e => Err e
  end.
#[global] Instance Res_fmap : FMap Res := λ A B f r,
  match r with
  | Ok a => Ok (f a)
  | Err e => Err e
  end.

(** A failed property access raises a [TypeError]. *)
Definition throwing {A} (o : option A) : Res A :=
  match o with
  | Some a => Ok a
  | None => Err TypeError
  end.

(** [for (const b of l) { a = f(a, b) }], stopping at the first failure. *)
Fixpoint foldM {A B} (f : A → B → Res A) (l : list B) (a : A) : Res A :=
  match l with
  | [] => Ok a
  | b :: rest => a' ← f a b; foldM f rest a'
  end.

(** ** The option applicability table *)

Record SchemaFieldOptions : Type := {
  attrName : string;
  doesNotApplyTo : gset TigrisDataTypes;
  doesNotApplyToParent : gset TigrisDataTypes;
}.

Definition schemaOptions : list SchemaFieldOptions := [
  {| attrName := "default";
     doesNotApplyTo := ∅;
     doesNotApplyToParent := ∅ |};
  {| attrName := "timestamp";
     doesNotApplyTo := {[ OBJECT ]};
     doesNotApplyToParent := ∅ |};
  {| attrName := "searchIndex";
     doesNotApplyTo := {[ OBJECT ]};
     doesNotApplyToParent := {[ ARRAY ]} |};
  {| attrName := "sort";
     doesNotApplyTo := {[ OBJECT ]};
     doesNotApplyToParent := {[ ARRAY ]} |};
  {| attrName := "facet";
     doesNotApplyTo := {[ OBJECT ]};
     doesNotApplyToParent := {[ ARRAY ]} |};
  {| attrName := "dimensions";
     doesNotApplyTo := {[ OBJECT; NUMBER ]};
     doesNotApplyToParent := {[ ARRAY ]} |};
  {| attrName := "id";
     doesNotApplyTo :=
       {[ OBJECT; ARRAY; NUMBER; BOOLEAN; NUMBER_BIGINT; INT64; INT32; DATE_TIME ]};
     doesNotApplyToParent := {[ ARRAY ]} |};
  {| attrName := "index";
     doesNotApplyTo := {[ OBJECT; ARRAY ]};
     doesNotApplyToParent := {[ ARRAY; OBJECT ]} |}
].

Definition schemaOptionSupported (fieldOptions : OptionBag)
    (fieldType : TigrisDataTypes) (fieldParentType : option TigrisDataTypes)
    (attr : SchemaFieldOptions) : bool :=
  if bool_decide (is_Some (fieldOptions !! attrName attr))
     && negb (bool_decide (fieldType ∈ doesNotApplyTo attr))
     && match fieldParentType with
        | None => true
        | Some p => negb (bool_decide (p ∈ doesNotApplyToParent attr))
        end
  then true
  else false.

(** ** Field resolver *)

(** [{ ...a, ...b }] on two option bags, either of which may be
    [undefined]: the keys of both, with [b] winning where both have one. *)
Definition spread (a b : option OptionBag) : OptionBag :=
  default ∅ b ∪ default ∅ a.

(** The array [searchFieldsLookup]: the properties assigned to it, and
    its [length]. *)
Record ArrayObject : Type := {
  own : gmap string FieldMetadata.t;
  alength : N;
}.

(** What [searchFieldsLookup[name]] yields, as far as the code inspects
    it: a field descriptor; some other truthy value, which has no
    [schemaFieldOptions]; or a falsy value. *)
Inductive Looked : Type :=
  | Found (searchField : FieldMetadata.t)
  | Truthy
  | Missing.

Section Resolver.
Context {realm : Realm}.

(** [searchFieldsLookup[field.name] = field].  Setting [length] to an
    object raises a [RangeError]; an array index extends the array. *)
Definition array_assign (lookup : ArrayObject) (field : FieldMetadata.t)
    : Res ArrayObject :=
  let name := FieldMetadata.name field in
  if decide (name = "length") then Err invalid_array_length
  else
    Ok {| own := <[name := field]> (own lookup);
          alength := match array_index name with
                     | Some n => N.max (alength lookup) (n + 1)
                     | None => alength lookup
                     end |}.

(** [searchFieldsLookup[name]]: the [length] of the array, an assigned
    property, or an inherited member. *)
Definition array_lookup (lookup : ArrayObject) (name : string) : Looked :=
  if decide (name = "length") then
    if (0 <? alength lookup)%N then Truthy else Missing
  else
    match own lookup !! name with
    | Some searchField => Found searchField
    | None =>
        if Array_prototype name || Object_prototype name then Truthy else Missing
    end.

Definition getSchemaFields (self : DecoratedSchemaProcessor)
    (from : ClassRef) (forCollection : bool) : Res (list FieldMetadata.t) :=
  let searchFields := getSearchFieldsByTarget (storage self) from in
  if negb forCollection then Ok searchFields
  else
    (* create a lookup for search fields *)
    searchFieldsLookup ←
      foldM array_assign searchFields {| own := ∅; alength := 0 |};
    (* process the collection fields *)
    let collectionFields := getCollectionFieldsByTarget (storage self) from in
    let '(fields, visitedFields) :=
      fold_left
        (λ '(fields, visitedFields) cf,
           let fieldOption :=
             match array_lookup searchFieldsLookup (FieldMetadata.name cf) with
             | Found searchField =>
                 Some (spread (FieldMetadata.schemaFieldOptions cf)
                              (FieldMetadata.schemaFieldOptions searchField))
             | Truthy => Some (spread (FieldMetadata.schemaFieldOptions cf) None)
             | Missing => FieldMetadata.schemaFieldOptions cf
             end in
           (fields ++ [FieldMetadata.with_options cf fieldOption],
            ({[ FieldMetadata.name cf ]} ∪ visitedFields : gset string)))
        collectionFields ([], ∅) in
    (* process the additional fields that are tagged as search fields *)
    Ok (fold_left
          (λ fields sf,
             if decide (FieldMetadata.name sf ∈ visitedFields) then fields
             else fields ++ [sf])
          searchFields fields).
End Resolver.

(** ** Nested arrays *)

(** [buildNestedArray] links freshly allocated objects by assignment
    through the aliases [head], [prev] and [next].  The objects live in
    a small heap: a slot holds either a finished value or the address of
    another cell. *)
Inductive Slot : Type :=
  | SlotVal (v : JsVal)
  | SlotRef (a : nat).

Abbreviation Cell := (list (string * Slot)).
Abbreviation Heap := (list Cell).

Record NestState : Type := {
  heap : Heap;
  head : option nat;
  prev : option nat;
  next : option nat;
}.

(** [{}] *)
Definition alloc (h : Heap) : Heap * nat := (h ++ [[]], length h).

(** [a[k] = s] *)
Definition cell_set (a : nat) (k : string) (s : Slot) (h : Heap) : option Heap :=
  c ← h !! a; Some (<[a := prop_set k s c]> h).

(** One turn of the [while] loop, without the decrement of [depth]. *)
Definition nest_body (st : NestState) : option NestState :=
  let '(h0, head0, next0) :=
    match head st with
    | None => let '(h, a) := alloc (heap st) in (h, Some a, Some a)
    | Some _ => (heap st, head st, next st)
    end in
  n ← next0;
  h1 ← cell_set n "type" (SlotVal (VTag ARRAY)) h0;
  let '(h2, a) := alloc h1 in
  h3 ← cell_set n "items" (SlotRef a) h2;
  c ← h3 !! n;
  match prop_get "items" c with
  | Some (SlotRef a') =>
      Some {| heap := h3; head := head0; prev := Some n; next := Some a' |}
  | _ => None
  end.

(** [while (depth > 0) { ...; depth -= 1 }]; for an integer [depth] the
    loop makes [Z.to_nat depth] turns, which is the fuel it is given. *)
Fixpoint nest_loop (fuel : nat) (depth : Z) (st : NestState) : option NestState :=
  if depth >? 0 then
    match fuel with
    | O => None
    | S fuel' => st' ← nest_body st; nest_loop fuel' (depth - 1) st'
    end
  else Some st.

(** The value an address denotes. *)
Fixpoint reify (fuel : nat) (h : Heap) (a : nat) : option JsVal :=
  match fuel with
  | O => None
  | S fuel' =>
      c ← h !! a;
      VObj <$>
        (fix props (c : Cell) : option Props :=
           match c with
           | [] => Some []
           | (k, SlotVal v) :: rest => ps ← props rest; Some ((k, v) :: ps)
           | (k, SlotRef b) :: rest =>
               v ← reify fuel' h b; ps ← props rest; Some ((k, v) :: ps)
           end) c
  end.

(** A use of an [undefined] alias ([prev] when the loop made no turn) is
    a [TypeError]. *)
Definition buildNestedArray (items : JsVal) (depth : Z) : Res JsVal :=
  let init := {| heap := []; head := None; prev := None; next := None |} in
  st ← throwing (nest_loop (Z.to_nat depth) depth init);
  p ← throwing (prev st);
  h ← throwing (cell_set p "items" (SlotVal items) (heap st));
  a ← throwing (head st);
  throwing (reify (length h) h a).

(** ** Schema builder *)

Section Builder.
Context {realm : Realm}.
(** The recursive call [this.buildTigrisSchema(...)]. *)
Variable rec : ClassRef → bool → option TigrisDataTypes → Res Props.
Variable forCollection : bool.
Variable parentFieldType : option TigrisDataTypes.

(** [field.arrayDepth && field.arrayDepth > 1 ? field.arrayDepth : 1] *)
Definition effective_depth (field : FieldMetadata.t) : Z :=
  match FieldMetadata.arrayDepth field with
  | Some d => if negb (d =? 0) && (d >? 1) then d else 1
  | None => 1
  end.

(** The [switch (field.type)] of the loop body. *)
Definition build_case (field : FieldMetadata.t) (schema : Props) : Res Props :=
  let key := FieldMetadata.name field in
  match FieldMetadata.type field with
  | ARRAY =>
      arrayItems ←
        match FieldMetadata.embedType field with
        | EmbedClass c =>
            nested ← rec c forCollection
                       (Some (default (FieldMetadata.type field) parentFieldType));
            Ok (VObj [("type", VObj nested)])
        | EmbedTag t => Ok (VObj [("type", VTag t)])
        | NoEmbed => Ok (VObj [("type", VUndef)])
        end;
      node ← buildNestedArray arrayItems (effective_depth field);
      Ok (prop_set key node schema)
  | OBJECT =>
      match FieldMetadata.embedType field with
      | EmbedClass c =>
          embedSchema ← rec c forCollection
                          (Some (default (FieldMetadata.type field) parentFieldType));
          (* generate embedded schema as its a class *)
          if (0 <? keys_length embedSchema)%nat then
            nested ← rec c forCollection
                       (Some (default (FieldMetadata.type field) parentFieldType));
            Ok (prop_set key (VObj [("type", VObj nested)]) schema)
          else Ok schema
      | _ => Ok schema
      end
  | STRING =>
      match FieldMetadata.schemaFieldOptions field with
      | Some opts =>
          match opts !! "maxLength" with
          | Some v => throwing (node_set key "maxLength" v schema)
          | None => Ok schema
          end
      | None => Ok schema
      end
  | _ => Ok schema
  end.

(** [for (const opKey of schemaOptions) ...] *)
Definition attach_options (field : FieldMetadata.t) (schema : Props) : Res Props :=
  match FieldMetadata.schemaFieldOptions field with
  | Some opts =>
      foldM
        (λ schema opKey,
           if schemaOptionSupported opts (FieldMetadata.type field)
                parentFieldType opKey
           then throwing (node_set (FieldMetadata.name field) (attrName opKey)
                            (default VUndef (opts !! attrName opKey)) schema)
           else Ok schema)
        schemaOptions schema
  | None => Ok schema
  end.

(** The body of [for (const field of fields)]. *)
Definition build_field (schema : Props) (field : FieldMetadata.t) : Res Props :=
  let key := FieldMetadata.name field in
  let schema :=
    if key_in key schema then schema
    else prop_set key (VObj [("type", VTag (FieldMetadata.type field))]) schema in
  schema ← build_case field schema;
  (* process any field optionals *)
  attach_options field schema.
End Builder.

Section Processor.
Context {realm : Realm}.

Fixpoint buildTigrisSchema (self : DecoratedSchemaProcessor) (fuel : nat)
    (from : ClassRef) (forCollection : bool)
    (parentFieldType : option TigrisDataTypes) : Res Props :=
  match fuel with
  | O => Err stack_overflow
  | S fuel' =>
      (* get all top level fields matching this target *)
      fields ← getSchemaFields self from forCollection;
      (* process each field *)
      foldM (build_field (buildTigrisSchema self fuel') forCollection parentFieldType)
            fields []
  end.

(** ** Primary keys *)

(** [pk?.options?.order] *)
Definition pk_order (pk : PrimaryKeyMetadata.t) : option Z :=
  PrimaryKeyMetadata.options pk ≫= PrimaryKeyOptions.order.

(** [pk.options?.autoGenerate] *)
Definition pk_autoGenerate (pk : PrimaryKeyMetadata.t) : option bool :=
  PrimaryKeyMetadata.options pk ≫= PrimaryKeyOptions.autoGenerate.

(** Truthiness of an optional number: [undefined] and [0] are falsy. *)
Definition truthy (n : option Z) : bool :=
  match n with
  | Some n => negb (n =? 0)
  | None => false
  end.

Definition validatePrimaryKeysOrder (primaryKeys : list PrimaryKeyMetadata.t)
    (collectionClass : ClassRef) : Res () :=
  if (1 <? length primaryKeys)%nat then
    foldM
      (λ _ pk,
         if negb (truthy (pk_order pk))
         then Err (IncompletePrimaryKeyOrderError (PrimaryKeyMetadata.name pk)
                     (Function_name collectionClass))
         else Ok ())
      primaryKeys ()
  else Ok ().

(** The [primary_key] literal written for one descriptor. *)
Definition primary_key_of (pk : PrimaryKeyMetadata.t) : JsVal :=
  VObj [("order", VNum (default 1 (pk_order pk)));
        ("autoGenerate", VBool (bool_decide (pk_autoGenerate pk = Some true)))].

(** The body of [for (const pk of primaryKeysMetadata)], on the schema
    object it mutates. *)
Definition add_primary_key (targetSchema : Props) (pk : PrimaryKeyMetadata.t)
    : Props * Res () :=
  let targetSchema :=
    if key_in (PrimaryKeyMetadata.name pk) targetSchema then targetSchema
    else prop_set (PrimaryKeyMetadata.name pk)
           (VObj [("type", VTag (PrimaryKeyMetadata.type pk))]) targetSchema in
  match node_set (PrimaryKeyMetadata.name pk) "primary_key" (primary_key_of pk)
          targetSchema with
  | Some targetSchema' => (targetSchema', Ok ())
  | None => (targetSchema, Err TypeError)
  end.

Fixpoint add_primary_keys (pks : list PrimaryKeyMetadata.t) (targetSchema : Props)
    : Props * Res () :=
  match pks with
  | [] => (targetSchema, Ok ())
  | pk :: rest =>
      match add_primary_key targetSchema pk with
      | (targetSchema', Ok _) => add_primary_keys rest targetSchema'
      | stopped => stopped
      end
  end.

(** [addPrimaryKeys] mutates [targetSchema] in place: the result pairs
    the schema object as the call leaves it with the outcome. *)
Definition addPrimaryKeys (self : DecoratedSchemaProcessor) (targetSchema : Props)
    (collectionClass : ClassRef) : Props * Res () :=
  let primaryKeysMetadata := getPKsByTarget (storage self) collectionClass in
  match validatePrimaryKeysOrder primaryKeysMetadata collectionClass with
  | Ok _ => add_primary_keys primaryKeysMetadata targetSchema
  | Err e => (targetSchema, Err e)
  end.

(** ** Entry points *)

Record SchemaDocument : Type := { doc_name : string; doc_schema : Props }.

Definition processIndex (self : DecoratedSchemaProcessor) (fuel : nat)
    (cls : ClassRef) : Res SchemaDocument :=
  index ← throwing (getIndexByTarget (storage self) cls);
  schema ← buildTigrisSchema self fuel (IndexMetadata.target index) false None;
  Ok {| doc_name := IndexMetadata.indexName index; doc_schema := schema |}.

Definition processCollection (self : DecoratedSchemaProcessor) (fuel : nat)
    (cls : ClassRef) : Res SchemaDocument :=
  collection ← throwing (getCollectionByTarget (storage self) cls);
  schema ← buildTigrisSchema self fuel (CollectionMetadata.target collection) true None;
  let '(schema, outcome) :=
    addPrimaryKeys self schema (CollectionMetadata.target collection) in
  _ ← outcome;
  Ok {| doc_name := CollectionMetadata.collectionName collection;
        doc_schema := schema |}.

End Processor.

(** * Specification-side definitions *)

(** ** The blocked combinations, as listed *)

Definition is_one_of (attr : string) (l : list string) : bool :=
  bool_decide (attr ∈ l).

Definition tag_one_of (t : TigrisDataTypes) (l : list TigrisDataTypes) : bool :=
  bool_decide (t ∈ l).

(** The blocked combinations as the specification lists them, clause by
    clause: the attributes that are never valid on an OBJECT field; those
    invalid under an ARRAY parent; [index] under an OBJECT parent; the
    further field types closed to [id]; those closed to [dimensions]. *)
Definition claimed_blocked (attr : string) (t : TigrisDataTypes)
    (p : option TigrisDataTypes) : bool :=
  (bool_decide (t = OBJECT)
     && is_one_of attr ["timestamp"; "searchIndex"; "sort"; "facet";
                        "dimensions"; "id"; "index"])
  || (bool_decide (p = Some ARRAY)
        && is_one_of attr ["searchIndex"; "sort"; "facet"; "dimensions"; "id"])
  || (bool_decide (p = Some OBJECT) && is_one_of attr ["index"])
  || (is_one_of attr ["id"]
        && tag_one_of t [ARRAY; NUMBER; BOOLEAN; NUMBER_BIGINT; INT64; INT32; DATE_TIME])
  || (is_one_of attr ["dimensions"] && tag_one_of t [OBJECT; NUMBER]).

(** The same list with the two combinations of [index] that the table
    has and the list leaves out: [index] on an ARRAY field, and [index]
    under an ARRAY parent. *)
Definition table_blocked (attr : string) (t : TigrisDataTypes)
    (p : option TigrisDataTypes) : bool :=
  claimed_blocked attr t p
  || (is_one_of attr ["index"]
        && (bool_decide (t = ARRAY) || bool_decide (p = Some ARRAY))).


(** ** The resolver, in closed form *)

Section ResolverDescribed.
Context {realm : Realm}.

(** The lookup built from search fields none of which is named
    [length]: a later entry of the same name replaces an earlier one. *)
Definition search_lookup (searchFields : list FieldMetadata.t) : ArrayObject :=
  fold_left
    (λ lookup field,
       {| own := <[FieldMetadata.name field := field]> (own lookup);
          alength := match array_index (FieldMetadata.name field) with
                     | Some n => N.max (alength lookup) (n + 1)
                     | None => alength lookup
                     end |})
    searchFields {| own := ∅; alength := 0 |}.

(** The descriptor emitted for a collection field. *)
Definition merge_field (lookup : ArrayObject) (cf : FieldMetadata.t)
    : FieldMetadata.t :=
  FieldMetadata.with_options cf
    match array_lookup lookup (FieldMetadata.name cf) with
    | Found searchField =>
        Some (spread (FieldMetadata.schemaFieldOptions cf)
                     (FieldMetadata.schemaFieldOptions searchField))
    | Truthy => Some (spread (FieldMetadata.schemaFieldOptions cf) None)
    | Missing => FieldMetadata.schemaFieldOptions cf
    end.

End ResolverDescribed.

(** No search field of the class is named [length]. *)
Definition no_length_field (self : DecoratedSchemaProcessor) (c : ClassRef) : Prop :=
  Forall (λ sf, FieldMetadata.name sf ≠ "length")
         (getSearchFieldsByTarget (storage self) c).


(** ** Nested arrays, as described *)

(** [d] layers of [{ type: ARRAY, items: <inner> }] around an element
    descriptor. *)
Fixpoint wrap (d : nat) (items : JsVal) : JsVal :=
  match d with
  | O => items
  | S d' => VObj [("type", VTag ARRAY); ("items", wrap d' items)]
  end.

(** The heap of [buildNestedArray] while the loop runs: [k] linked cells
    followed by the empty object that [next] points to. *)
Definition link_cell (i : nat) : Cell :=
  [("type", SlotVal (VTag ARRAY)); ("items", SlotRef (S i))].

Definition links (k : nat) : Heap := map link_cell (seq 0 k).

Definition nest_state (k : nat) : NestState :=
  {| heap := links k ++ [[]];
     head := Some 0%nat;
     prev := Some (pred k);
     next := Some k |}.

(** The heap once [prev["items"] = items] has been executed. *)
Definition final_heap (k : nat) (items : JsVal) : Heap :=
  links k ++ [[("type", SlotVal (VTag ARRAY)); ("items", SlotVal items)]; []].

(** ** Attaching the optional attributes, on one node *)

(** The effect of the loop over [schemaOptions] on the node of the field. *)
Definition attach_rows (rows : list SchemaFieldOptions) (opts : OptionBag)
    (t : TigrisDataTypes) (p : option TigrisDataTypes) (node : Props) : Props :=
  fold_left
    (λ node opKey,
       if schemaOptionSupported opts t p opKey
       then prop_set (attrName opKey) (default VUndef (opts !! attrName opKey)) node
       else node)
    rows node.

Definition attach_node (field : FieldMetadata.t) (p : option TigrisDataTypes)
    (node : Props) : Props :=
  match FieldMetadata.schemaFieldOptions field with
  | Some opts => attach_rows schemaOptions opts (FieldMetadata.type field) p node
  | None => node
  end.


(** Every value of a schema object is an object. *)
Definition nodes_ok (schema : Props) : Prop :=
  ∀ k v, prop_get k schema = Some v → ∃ node, v = VObj node.

(** ** The node of one field, as described *)

Section FieldNode.
Variable rec : ClassRef → bool → option TigrisDataTypes → Res Props.
Variable forCollection : bool.
Variable parentFieldType : option TigrisDataTypes.

(** The parent type handed to the build of an embedded class:
    [parentFieldType ?? field.type]. *)
Definition passed_parent (field : FieldMetadata.t) : option TigrisDataTypes :=
  Some (default (FieldMetadata.type field) parentFieldType).

(** The element descriptor of an ARRAY field. *)
Definition element_descriptor (field : FieldMetadata.t) (elem : JsVal) : Prop :=
  match FieldMetadata.embedType field with
  | EmbedClass c =>
      ∃ nested, rec c forCollection (passed_parent field) = Ok nested
                ∧ elem = VObj [("type", VObj nested)]
  | EmbedTag t => elem = VObj [("type", VTag t)]
  | NoEmbed => elem = VObj [("type", VUndef)]
  end.

(** The node [base] that the [switch] leaves for a field whose node was
    [node0] before it. *)
Definition case_node (field : FieldMetadata.t) (node0 base : Props) : Prop :=
  match FieldMetadata.type field with
  | ARRAY =>
      ∃ elem, element_descriptor field elem
              ∧ VObj base = wrap (Z.to_nat (effective_depth field)) elem
  | OBJECT =>
      match FieldMetadata.embedType field with
      | EmbedClass c =>
          ∃ nested, rec c forCollection (passed_parent field) = Ok nested
                    ∧ base = if (0 <? length nested)%nat
                             then [("type", VObj nested)]
                             else node0
      | _ => base = node0
      end
  | STRING =>
      base = match FieldMetadata.schemaFieldOptions field ≫= (.!! "maxLength") with
             | Some v => prop_set "maxLength" v node0
             | None => node0
             end
  | _ => base = node0
  end.
End FieldNode.

(** The [switch] assigns [schema[key]] anew for an ARRAY field, and for
    an OBJECT field when it attaches a nested schema. *)
Definition assigns (field : FieldMetadata.t) (base : Props) : Prop :=
  FieldMetadata.type field = ARRAY
  ∨ (FieldMetadata.type field = OBJECT ∧ ∃ nested, base = [("type", VObj nested)]).


(** The node a field starts from: the one already stored under its name,
    or the seed [{ type: field.type }]. *)
Definition start_node (field : FieldMetadata.t) (schema : Props) : Props :=
  match prop_get (FieldMetadata.name field) schema with
  | Some (VObj node) => node
  | _ => [("type", VTag (FieldMetadata.type field))]
  end.

(** ** Termination of the recursion *)

(** [later] repeats every outcome that [earlier] has reached without
    using up the stack. *)
Definition extends (earlier later : ClassRef → bool → option TigrisDataTypes → Res Props)
    : Prop :=
  ∀ c fc p r, earlier c fc p = r → r ≠ Err stack_overflow → later c fc p = r.

Section ClassGraph.
Context {realm : Realm}.


End ClassGraph.

(** ** Nesting *)

(** [v.k1.k2...] *)
Fixpoint path_get (path : list string) (v : JsVal) : option JsVal :=
  match path with
  | [] => Some v
  | k :: rest =>
      match v with
      | VObj props => v' ← prop_get k props; path_get rest v'
      | _ => None
      end
  end.



Section Nesting.
Context {realm : Realm}.


End Nesting.


(** * Example metadata *)

(** A store filled from registration tables, one entry per class. *)
Definition make_storage
    (collections indexes : list (ClassRef * string))
    (collectionFields searchFields : list (ClassRef * list FieldMetadata.t))
    (primaryKeys : list (ClassRef * list PrimaryKeyMetadata.t))
    : DecoratorMetaStorage :=
  {| getCollectionByTarget c := CollectionMetadata.mk c <$> prop_get c collections;
     getIndexByTarget c := IndexMetadata.mk c <$> prop_get c indexes;
     getCollectionFieldsByTarget c := default [] (prop_get c collectionFields);
     getSearchFieldsByTarget c := default [] (prop_get c searchFields);
     getPKsByTarget c := default [] (prop_get c primaryKeys) |}.

Definition scalar (name : string) (t : TigrisDataTypes)
    (opts : option OptionBag) : FieldMetadata.t :=
  FieldMetadata.mk name t NoEmbed None opts.

Definition key (name : string) (t : TigrisDataTypes) (order : option Z)
    (autoGenerate : option bool) : PrimaryKeyMetadata.t :=
  PrimaryKeyMetadata.mk name t (Some (PrimaryKeyOptions.mk order autoGenerate)).

(** Nesting of depth two, in both orders: an ARRAY of objects holding an
    OBJECT, and an OBJECT holding an ARRAY of objects; the innermost
    class has a string field tagged [searchIndex]. *)
Definition array_of_mid : FieldMetadata.t :=
  FieldMetadata.mk "a" ARRAY (EmbedClass "Mid") None None.
Definition object_of_leaf : FieldMetadata.t :=
  FieldMetadata.mk "o" OBJECT (EmbedClass "Leaf") None None.
Definition object_of_list : FieldMetadata.t :=
  FieldMetadata.mk "o" OBJECT (EmbedClass "List") None None.
Definition array_of_leaf : FieldMetadata.t :=
  FieldMetadata.mk "a" ARRAY (EmbedClass "Leaf") None None.
Definition leaf_string : FieldMetadata.t :=
  scalar "s" STRING (Some {[ "searchIndex" := VBool true ]}).

Definition nesting : DecoratedSchemaProcessor :=
  {| storage :=
       make_storage [("Root", "roots"); ("Box", "boxes")] []
         [("Root", [array_of_mid]);
          ("Mid", [object_of_leaf]);
          ("Box", [object_of_list]);
          ("List", [array_of_leaf]);
          ("Leaf", [leaf_string])]
         [] [] |}.







(** A field declared both as a collection field and as a search field,
    and a field declared only as a search field. *)
Definition title_field : FieldMetadata.t :=
  scalar "title" STRING (Some {[ "default" := VNum 1 ]}).
Definition title_search : FieldMetadata.t :=
  scalar "title" STRING (Some {[ "default" := VNum 2; "facet" := VBool true ]}).
Definition body_field : FieldMetadata.t := scalar "body" STRING None.
Definition tags_search : FieldMetadata.t :=
  FieldMetadata.mk "tags" ARRAY (EmbedTag STRING) None None.

Definition docs : DecoratedSchemaProcessor :=
  {| storage :=
       make_storage [("Doc", "docs")] [("Doc", "docs_index")]
         [("Doc", [title_field; body_field])]
         [("Doc", [title_search; tags_search])]
         [("Doc", [key "title" STRING None (Some true)])] |}.

(** Composite primary keys: complete, with a missing order, and with an
    order of zero; and a single key whose order is zero. *)
Definition tenant_key (order : option Z) : PrimaryKeyMetadata.t :=
  key "tenant" STRING order None.
Definition id_key : PrimaryKeyMetadata.t := key "id" INT64 (Some 2) (Some true).

Definition keyed : DecoratedSchemaProcessor :=
  {| storage :=
       make_storage
         [("Complete", "complete"); ("Missing", "missing");
          ("Zero", "zero"); ("Single", "single")] []
         [("Complete", [scalar "tenant" STRING None]);
          ("Missing", [scalar "tenant" STRING None]);
          ("Zero", [scalar "tenant" STRING None]);
          ("Single", [scalar "tenant" STRING None])]
         []
         [("Complete", [tenant_key (Some 1); id_key]);
          ("Missing", [tenant_key None; id_key]);
          ("Zero", [tenant_key (Some 0); id_key]);
          ("Single", [tenant_key (Some 0)])] |}.

(** A field named [length], declared as a collection field and as a
    search field. *)
Definition length_field : FieldMetadata.t := scalar "length" INT32 None.
Definition length_search : FieldMetadata.t :=
  scalar "length" INT32 (Some {[ "sort" := VBool true ]}).

Definition sized : DecoratedSchemaProcessor :=
  {| storage :=
       make_storage [("Sized", "sized")] [("Sized", "sized_index")]
         [("Sized", [length_field])]
         [("Sized", [length_search])] [] |}.

(** A primary key, and fields, named like members of
    [Object.prototype]. *)
Definition named : DecoratedSchemaProcessor :=
  {| storage :=
       make_storage
         [("Named", "named"); ("Shadow", "shadows"); ("Listing", "listings")] []
         [("Named", [scalar "label" STRING None]);
          ("Shadow",
           [scalar "toString" STRING (Some {[ "default" := VStr "x" ]});
            FieldMetadata.mk "valueOf" ARRAY (EmbedTag INT32) None None;
            scalar "hasOwnProperty" BOOLEAN None]);
          ("Listing", [scalar "keys" STRING None; scalar "7" INT32 None;
                       scalar "price" NUMBER None; scalar "2" INT32 None])]
         []
         [("Named", [key "toString" STRING None (Some true)])] |}.

Definition shadow_flag : FieldMetadata.t := scalar "hasOwnProperty" BOOLEAN None.

(** * Further definitions *)

(** [Object.keys(o)] *)
Definition keys (o : Props) : list string := map fst o.


(** Every value of a schema object is an object that has a [type]. *)
Definition typed_nodes (schema : Props) : Prop :=
  ∀ k v, prop_get k schema = Some v →
         ∃ node, v = VObj node ∧ is_Some (prop_get "type" node).




(** The descriptor of [title] once the two bags are merged, the row of
    [facet], and the schema of [Doc] in collection mode. *)
Definition title_merged : FieldMetadata.t :=
  FieldMetadata.with_options title_field
    (Some {[ "default" := VNum 2; "facet" := VBool true ]}).


Definition docs_schema : Props :=
  [("title", VObj [("type", VTag STRING); ("default", VNum 2); ("facet", VBool true)]);
   ("body", VObj [("type", VTag STRING)]);
   ("tags", VObj [("type", VTag ARRAY); ("items", VObj [("type", VTag STRING)])])].

(** The store of [docs] without its collection fields and primary keys. *)
Definition docs_search_only : DecoratedSchemaProcessor :=
  {| storage :=
       make_storage [] [("Doc", "docs_index")] []
         [("Doc", [title_search; tags_search])] [] |}.

(** * Properties *)

(** ** Object properties *)

Section PropertyFacts.
Context {A : Type}.
Implicit Types (o : list (string * A)) (k : string) (v : A).

Lemma prop_has_true k o : prop_has k o = true ↔ is_Some (prop_get k o).
Proof. unfold prop_has. by rewrite bool_decide_eq_true. Qed.

Lemma prop_has_false k o : prop_has k o = false ↔ prop_get k o = None.
Proof.
  unfold prop_has. rewrite bool_decide_eq_false, <- eq_None_not_Some. done.
Qed.

Lemma prop_get_replace k k' v o :
  prop_get k' (prop_replace k v o)
  = if decide (k = k') then (λ _, v) <$> prop_get k o else prop_get k' o.
Proof.
  induction o as [|[k0 v0] o IH]; cbn [prop_replace prop_get].
  - by destruct (decide (k = k')).
  - destruct (decide (k0 = k)) as [->|Hk0]; cbn [prop_get].
    + destruct (decide (k = k')); [done|]. done.
    + destruct (decide (k0 = k')) as [->|Hk0'].
      * by rewrite decide_False by done.
      * rewrite IH. by destruct (decide (k = k')).
Qed.

Lemma prop_get_insert_ne n k k' v o :
  k ≠ k' → prop_get k' (prop_insert n k v o) = prop_get k' o.
Proof.
  intros Hne. induction o as [|[k0 v0] o IH]; cbn [prop_insert prop_get].
  - by rewrite decide_False.
  - destruct (array_index k0) as [n'|].
    + destruct (n' <? n)%N; cbn [prop_get].
      * destruct (decide (k0 = k')); [done | apply IH].
      * by rewrite (decide_False (P := k = k')) by done.
    + cbn [prop_get]. by rewrite (decide_False (P := k = k')) by done.
Qed.

Lemma prop_get_insert_eq n k v o :
  prop_get k o = None → prop_get k (prop_insert n k v o) = Some v.
Proof.
  induction o as [|[k0 v0] o IH]; cbn [prop_insert prop_get].
  - by rewrite decide_True.
  - destruct (decide (k0 = k)) as [->|Hk0]; [done|]. intros Hget.
    destruct (array_index k0) as [n'|].
    + destruct (n' <? n)%N; cbn [prop_get].
      * rewrite decide_False by done. by apply IH.
      * by rewrite decide_True.
    + cbn [prop_get]. by rewrite decide_True.
Qed.

Lemma prop_get_app k o o' :
  prop_get k (o ++ o')
  = match prop_get k o with Some x => Some x | None => prop_get k o' end.
Proof.
  induction o as [|[k0 v0] o IH]; cbn [app prop_get]; [done|].
  by destruct (decide (k0 = k)).
Qed.

Lemma prop_get_set_eq k v o : prop_get k (prop_set k v o) = Some v.
Proof.
  unfold prop_set. destruct (prop_has k o) eqn:Hhas.
  - apply prop_has_true in Hhas as [x Hx].
    rewrite prop_get_replace, decide_True by done. by rewrite Hx.
  - apply prop_has_false in Hhas. destruct (array_index k) as [n|].
    + by apply prop_get_insert_eq.
    + rewrite prop_get_app, Hhas. cbn [prop_get]. by rewrite decide_True.
Qed.

Lemma prop_get_set_ne k k' v o : k ≠ k' → prop_get k' (prop_set k v o) = prop_get k' o.
Proof.
  intros Hne. unfold prop_set. destruct (prop_has k o).
  - by rewrite prop_get_replace, decide_False.
  - destruct (array_index k) as [n|].
    + by apply prop_get_insert_ne.
    + rewrite prop_get_app. cbn [prop_get]. rewrite decide_False by done.
      by destruct (prop_get k' o).
Qed.

Lemma prop_has_set_eq k v o : prop_has k (prop_set k v o) = true.
Proof. apply prop_has_true. rewrite prop_get_set_eq. eauto. Qed.

Lemma prop_has_set_ne k k' v o : k ≠ k' → prop_has k' (prop_set k v o) = prop_has k' o.
Proof. intros Hne. unfold prop_has. by rewrite prop_get_set_ne. Qed.

Lemma prop_replace_length k v o : length (prop_replace k v o) = length o.
Proof.
  induction o as [|[k' v'] o IH]; cbn [prop_replace length]; [done|].
  destruct (decide (k' = k)); cbn [length]; [done | by rewrite IH].
Qed.

Lemma prop_insert_length n k v o : length (prop_insert n k v o) = S (length o).
Proof.
  induction o as [|[k' v'] o IH]; cbn [prop_insert length]; [done|].
  destruct (array_index k') as [n'|]; [|done].
  destruct (n' <? n)%N; cbn [length]; [by rewrite IH | done].
Qed.

(** An assignment to an own property keeps the number of properties; any
    other adds one. *)
Lemma prop_set_length_eq k v o :
  length (prop_set k v o) = if prop_has k o then length o else S (length o).
Proof.
  unfold prop_set. destruct (prop_has k o).
  - apply prop_replace_length.
  - destruct (array_index k).
    + apply prop_insert_length.
    + rewrite length_app. cbn [length]. lia.
Qed.

Lemma prop_set_nonempty k v o : (0 < length (prop_set k v o))%nat.
Proof.
  rewrite prop_set_length_eq. destruct (prop_has k o) eqn:Hhas; [|lia].
  apply prop_has_true in Hhas as [x Hx]. destruct o; [done | cbn [length]; lia].
Qed.

Lemma prop_set_length k v o : (length o ≤ length (prop_set k v o))%nat.
Proof. rewrite prop_set_length_eq. destruct (prop_has k o); lia. Qed.

Lemma prop_set_same_length k v v' o :
  prop_get k o = Some v' → length (prop_set k v o) = length o.
Proof.
  intros Hget. rewrite prop_set_length_eq.
  destruct (prop_has k o) eqn:Hhas; [done|]. apply prop_has_false in Hhas. congruence.
Qed.

(** A name that is not an array index is appended to an object that does
    not have it. *)
Lemma prop_set_new k v o :
  prop_get k o = None → array_index k = None → prop_set k v o = o ++ [(k, v)].
Proof.
  intros Hget Hidx. unfold prop_set. apply prop_has_false in Hget.
  by rewrite Hget, Hidx.
Qed.
End PropertyFacts.

Section NodeFacts.
Context {realm : Realm}.

Lemma node_set_ok key attr v schema node :
  prop_get key schema = Some (VObj node) →
  node_set key attr v schema
  = Some (prop_set key (VObj (prop_set attr v node)) schema).
Proof. unfold node_set. by intros ->. Qed.

(** An assignment through a name that the schema only inherits lands on
    the inherited member. *)
Lemma node_set_inherited key attr v schema :
  prop_get key schema = None → Object_prototype key = true →
  node_set key attr v schema = Some schema.
Proof. unfold node_set. by intros -> ->. Qed.

Lemma node_set_get_ne key key' attr v schema schema' :
  node_set key attr v schema = Some schema' → key ≠ key' →
  prop_get key' schema' = prop_get key' schema.
Proof.
  unfold node_set. destruct (prop_get key schema) as [[]|]; try done.
  - intros [= <-] Hne. by apply prop_get_set_ne.
  - destruct (Object_prototype key); [|done]. by intros [= <-].
Qed.

Lemma node_set_length key attr v schema schema' :
  node_set key attr v schema = Some schema' → length schema' = length schema.
Proof.
  unfold node_set. destruct (prop_get key schema) as [[]|] eqn:Hget; try done.
  - intros [= <-]. by eapply prop_set_same_length.
  - destruct (Object_prototype key); [|done]. by intros [= <-].
Qed.
End NodeFacts.

(** ** The option applicability table (C2) *)

(** C2, as stated, fails: [index] is present in the bag of an ARRAY-typed
    top-level field, none of the listed combinations blocks it, and the
    table still refuses to attach it. *)
Lemma option_table_index_on_array :
  let row := {| attrName := "index";
                doesNotApplyTo := {[ OBJECT; ARRAY ]};
                doesNotApplyToParent := {[ ARRAY; OBJECT ]} |} in
  row ∈ schemaOptions
  ∧ claimed_blocked "index" ARRAY None = false
  ∧ schemaOptionSupported {[ "index" := VBool true ]} ARRAY None row = false.
Proof.
  split; [|split].
  - unfold schemaOptions. do 7 apply list_elem_of_further. apply list_elem_of_here.
  - vm_compute. reflexivity.
  - vm_compute. reflexivity.
Qed.

(** C2 (amended): the table has exactly the eight rows default, timestamp,
    searchIndex, sort, facet, dimensions, id, index, and a row's attribute
    is attached iff it is present in the option bag and the combination is
    not one of the listed ones, to which [index] on an ARRAY-typed field
    and [index] under a tracked ARRAY parent are added; [default] is
    attached whenever it is present. *)
Theorem option_table_exact :
  map attrName schemaOptions
    = ["default"; "timestamp"; "searchIndex"; "sort"; "facet"; "dimensions"; "id"; "index"]
  ∧ Forall (λ row, ∀ (opts : OptionBag) t p,
        schemaOptionSupported opts t p row
        = bool_decide (is_Some (opts !! attrName row))
          && negb (table_blocked (attrName row) t p))
      schemaOptions
  ∧ ∀ t p, table_blocked "default" t p = false.
Proof.
  split; [reflexivity|]. split.
  - unfold schemaOptions. repeat constructor; intros opts t p;
      unfold schemaOptionSupported; cbn [attrName doesNotApplyTo doesNotApplyToParent];
      destruct (bool_decide (is_Some _)); cbn [andb]; try reflexivity.
    all: destruct p as [p|]; [destruct p|]; destruct t; try (vm_compute; reflexivity).
    all: unfold table_blocked, claimed_blocked, is_one_of, tag_one_of.
    all: repeat case_bool_decide; try done; set_solver.
  - intros t p. destruct t; destruct p as [[]|]; vm_compute; reflexivity.
Qed.

(** ** Field resolver (C5, C8) *)

Section ResolverFacts.
Context {realm : Realm}.
Import FieldMetadata.

Lemma merge_field_name lookup cf : name (merge_field lookup cf) = name cf.
Proof. reflexivity. Qed.

Lemma array_assign_ok lookup sf :
  name sf ≠ "length" →
  array_assign lookup sf
  = Ok {| own := <[name sf := sf]> (own lookup);
          alength := match array_index (name sf) with
                     | Some n => N.max (alength lookup) (n + 1)
                     | None => alength lookup
                     end |}.
Proof. intros Hne. unfold array_assign. cbv zeta. by rewrite decide_False. Qed.

Lemma array_assign_length lookup sf :
  name sf = "length" → array_assign lookup sf = Err invalid_array_length.
Proof. intros Heq. unfold array_assign. cbv zeta. by rewrite decide_True. Qed.

(** The lookup is built when no search field is named [length]. *)
Lemma array_assign_fold sfs lookup :
  Forall (λ sf, name sf ≠ "length") sfs →
  foldM array_assign sfs lookup
  = Ok (fold_left
          (λ lookup field,
             {| own := <[name field := field]> (own lookup);
                alength := match array_index (name field) with
                           | Some n => N.max (alength lookup) (n + 1)
                           | None => alength lookup
                           end |})
          sfs lookup).
Proof.
  intros Hall. revert lookup.
  induction Hall as [|sf sfs Hsf Hall IH]; intros lookup; cbn [foldM fold_left]; [done|].
  rewrite array_assign_ok by done. cbn [mbind Res_bind].
  apply IH.
Qed.

(** The assignment of a search field named [length] throws. *)
Lemma array_assign_throws sfs lookup :
  Exists (λ sf, name sf = "length") sfs →
  foldM array_assign sfs lookup = Err invalid_array_length.
Proof.
  intros Hex. revert lookup.
  induction sfs as [|sf sfs IH]; intros lookup; [by apply Exists_nil in Hex|].
  cbn [foldM].
  destruct (decide (name sf = "length")) as [Heq|Hne];
    [by rewrite array_assign_length|].
  rewrite array_assign_ok by done. cbn [mbind Res_bind]. apply IH.
  apply Exists_cons in Hex as [Hex|Hex]; done.
Qed.

Lemma lookup_fold_own (sfs : list FieldMetadata.t) lookup :
  own (fold_left
         (λ lookup field,
            {| own := <[name field := field]> (own lookup);
               alength := match array_index (name field) with
                          | Some n => N.max (alength lookup) (n + 1)
                          | None => alength lookup
                          end |})
         sfs lookup)
  = fold_left (λ m field, <[name field := field]> m) sfs (own lookup).
Proof.
  revert lookup. induction sfs as [|sf sfs IH]; intros lookup; cbn [fold_left]; [done|].
  by rewrite IH.
Qed.

Lemma lookup_fold_other (l : list FieldMetadata.t) (m : gmap string FieldMetadata.t) k :
  Forall (λ g, name g ≠ k) l →
  fold_left (λ lookup field, <[name field := field]> lookup) l m !! k = m !! k.
Proof.
  revert m. induction l as [|g l IH]; intros m Hl; simpl; [done|].
  inversion Hl; subst. rewrite IH by done. by rewrite lookup_insert_ne.
Qed.

Lemma search_lookup_last pre sf post :
  Forall (λ g, name g ≠ name sf) post →
  own (search_lookup (pre ++ sf :: post)) !! name sf = Some sf.
Proof.
  intros Hpost. unfold search_lookup. rewrite lookup_fold_own, fold_left_app. simpl.
  rewrite lookup_fold_other by done. apply lookup_insert_eq.
Qed.





Lemma collect_fold lookup cfs acc (vis : gset string) :
  fold_left
    (λ '(fields, visitedFields) cf,
       (fields ++ [merge_field lookup cf],
        ({[ name cf ]} ∪ visitedFields : gset string)))
    cfs (acc, vis)
  = (acc ++ map (merge_field lookup) cfs, list_to_set (map name cfs) ∪ vis).
Proof.
  revert acc vis. induction cfs as [|cf cfs IH]; intros acc vis; simpl.
  - rewrite app_nil_r. f_equal. set_solver.
  - rewrite IH. rewrite <- app_assoc. simpl. f_equal. set_solver.
Qed.

Lemma append_unvisited_fold (vis : gset string) sfs acc :
  fold_left
    (λ fields sf, if decide (name sf ∈ vis) then fields else fields ++ [sf])
    sfs acc
  = acc ++ filter (λ sf, name sf ∉ vis) sfs.
Proof.
  revert acc. induction sfs as [|sf sfs IH]; intros acc; simpl.
  - by rewrite app_nil_r.
  - rewrite IH. destruct (decide (name sf ∈ vis)) as [Hin|Hout].
    + rewrite filter_cons_False; [done | by intros ?].
    + rewrite filter_cons_True by done. by rewrite <- app_assoc.
Qed.

(** The resolver in closed form. *)
Lemma getSchemaFields_collection self from :
  no_length_field self from →
  let sfs := getSearchFieldsByTarget (storage self) from in
  let cfs := getCollectionFieldsByTarget (storage self) from in
  getSchemaFields self from true
  = Ok (map (merge_field (search_lookup sfs)) cfs
        ++ filter (λ sf, name sf ∉ (list_to_set (map name cfs) : gset string)) sfs).
Proof.
  intros Hsafe sfs cfs. unfold getSchemaFields. simpl negb. cbv iota.
  fold sfs cfs. rewrite (array_assign_fold sfs _ Hsafe). fold (search_lookup sfs).
  cbn [mbind Res_bind].
  change (fold_left _ cfs ([], ∅))
    with (fold_left
            (λ '(fields, visitedFields) cf,
               (fields ++ [merge_field (search_lookup sfs) cf],
                ({[ name cf ]} ∪ visitedFields : gset string)))
            cfs ([], ∅)).
  rewrite collect_fold. simpl. rewrite append_unvisited_fold.
  do 2 f_equal. apply list_filter_iff. intros sf. set_solver.
Qed.

(** A search field named [length] makes the resolver throw in collection
    mode. *)
Lemma getSchemaFields_length self from :
  Exists (λ sf, name sf = "length") (getSearchFieldsByTarget (storage self) from) →
  getSchemaFields self from true = Err invalid_array_length.
Proof.
  intros Hex. unfold getSchemaFields. simpl negb. cbv iota.
  by rewrite array_assign_throws.
Qed.

Lemma getSchemaFields_index self from :
  getSchemaFields self from false = Ok (getSearchFieldsByTarget (storage self) from).
Proof. reflexivity. Qed.



End ResolverFacts.

(** C5: in collection mode, a field declared in both metadata lists is
    emitted, at its position among the collection fields, as the
    collection field's descriptor with an option bag that is the
    key-wise union of the two bags, the search-field value winning on
    every key both have.  (When the search metadata holds several
    entries of that name the lookup keeps the last.)  This is so for
    every class none of whose search fields is named [length]; with such
    a field the resolver throws. *)
Theorem merged_options_union {realm : Realm} self from cpre cf cpost spre sf spost :
  getCollectionFieldsByTarget (storage self) from = cpre ++ cf :: cpost →
  getSearchFieldsByTarget (storage self) from = spre ++ sf :: spost →
  FieldMetadata.name sf = FieldMetadata.name cf →
  Forall (λ g, FieldMetadata.name g ≠ FieldMetadata.name cf) spost →
  Forall (λ g, FieldMetadata.name g ≠ "length") (spre ++ sf :: spost) →
  ∃ fields descriptor (merged : OptionBag),
    getSchemaFields self from true = Ok fields
    ∧ fields !! length cpre = Some descriptor
    ∧ FieldMetadata.name descriptor = FieldMetadata.name cf
    ∧ FieldMetadata.type descriptor = FieldMetadata.type cf
    ∧ FieldMetadata.embedType descriptor = FieldMetadata.embedType cf
    ∧ FieldMetadata.arrayDepth descriptor = FieldMetadata.arrayDepth cf
    ∧ FieldMetadata.schemaFieldOptions descriptor = Some merged
    ∧ ∀ k, merged !! k
           = match default ∅ (FieldMetadata.schemaFieldOptions sf) !! k with
             | Some v => Some v
             | None => default ∅ (FieldMetadata.schemaFieldOptions cf) !! k
             end.
Proof.
  intros Hcf Hsf Hname Hlast Hsafe.
  assert (Hcf_name : FieldMetadata.name cf ≠ "length").
  { rewrite <- Hname. apply Forall_app in Hsafe as [_ Hsafe].
    by apply Forall_cons in Hsafe as [? _]. }
  eexists _, (merge_field (search_lookup (spre ++ sf :: spost)) cf),
    (spread (FieldMetadata.schemaFieldOptions cf) (FieldMetadata.schemaFieldOptions sf)).
  split.
  { rewrite getSchemaFields_collection by (unfold no_length_field; by rewrite Hsf).
    cbn zeta. by rewrite Hcf, Hsf. }
  split.
  { rewrite lookup_app_l by (rewrite length_map, length_app; simpl; lia).
    by rewrite list_lookup_fmap, list_lookup_middle. }
  assert (Hbag : FieldMetadata.schemaFieldOptions
                   (merge_field (search_lookup (spre ++ sf :: spost)) cf)
                 = Some (spread (FieldMetadata.schemaFieldOptions cf)
                                (FieldMetadata.schemaFieldOptions sf))).
  { unfold merge_field, array_lookup. rewrite decide_False by done.
    rewrite <- Hname. rewrite search_lookup_last by (by rewrite Hname). done. }
  repeat (split; [done|]).
  intros k. unfold spread. rewrite lookup_union.
  destruct (default ∅ (FieldMetadata.schemaFieldOptions sf) !! k) eqn:Hs;
    destruct (default ∅ (FieldMetadata.schemaFieldOptions cf) !! k) eqn:Hc; done.
Qed.

Lemma filter_names_NoDup (P : FieldMetadata.t → Prop) `{∀ x, Decision (P x)}
    (l : list FieldMetadata.t) :
  NoDup (map FieldMetadata.name l) → NoDup (map FieldMetadata.name (filter P l)).
Proof.
  induction l as [|x l IH]; simpl; [done|].
  rewrite NoDup_cons. intros [Hx Hl].
  destruct (decide (P x)).
  - rewrite filter_cons_True by done. simpl. apply NoDup_cons. split; [|by apply IH].
    intros Hin. apply Hx. apply list_elem_of_fmap in Hin as (y & -> & Hy).
    apply list_elem_of_fmap. exists y. split; [done|].
    by apply list_elem_of_filter in Hy as [_ ?].
  - rewrite filter_cons_False by done. by apply IH.
Qed.

(** C8: in collection mode the unified list is the collection-declared
    fields in declaration order followed by the search-only fields in
    declaration order; when neither metadata list declares a name twice,
    the list holds exactly one descriptor for each declared name.  This
    is so for every class none of whose search fields is named [length];
    with such a field the resolver throws. *)
Theorem collection_fields_first {realm : Realm} self from :
  let cfs := getCollectionFieldsByTarget (storage self) from in
  let sfs := getSearchFieldsByTarget (storage self) from in
  Forall (λ sf, FieldMetadata.name sf ≠ "length") sfs →
  NoDup (map FieldMetadata.name cfs) →
  NoDup (map FieldMetadata.name sfs) →
  ∃ fields merged,
    getSchemaFields self from true = Ok fields
    ∧ fields
      = merged
        ++ filter (λ sf, FieldMetadata.name sf ∉ map FieldMetadata.name cfs) sfs
    ∧ Forall2 (λ m cf, FieldMetadata.name m = FieldMetadata.name cf
                       ∧ FieldMetadata.type m = FieldMetadata.type cf
                       ∧ FieldMetadata.embedType m = FieldMetadata.embedType cf
                       ∧ FieldMetadata.arrayDepth m = FieldMetadata.arrayDepth cf)
        merged cfs
    ∧ NoDup (map FieldMetadata.name fields)
    ∧ ∀ k, k ∈ map FieldMetadata.name fields
           ↔ k ∈ map FieldMetadata.name cfs ∨ k ∈ map FieldMetadata.name sfs.
Proof.
  intros cfs sfs Hsafe Hcfs Hsfs.
  set (fields := map (merge_field (search_lookup sfs)) cfs
                 ++ filter (λ sf, FieldMetadata.name sf ∉ map FieldMetadata.name cfs) sfs).
  assert (Hfields : getSchemaFields self from true = Ok fields).
  { rewrite getSchemaFields_collection by done. fold cfs sfs. unfold fields.
    do 2 f_equal. apply list_filter_iff. intros sf. by rewrite elem_of_list_to_set. }
  assert (Hnames : map FieldMetadata.name (map (merge_field (search_lookup sfs)) cfs)
                   = map FieldMetadata.name cfs).
  { rewrite map_map. by apply map_ext. }
  exists fields, (map (merge_field (search_lookup sfs)) cfs).
  split; [done|]. split; [done|]. split; [|split].
  - apply Forall2_fmap_l, Forall_Forall2_diag, Forall_forall.
    intros cf _. done.
  - unfold fields. rewrite map_app, Hnames. apply NoDup_app. split; [done|]. split.
    + intros k Hk Hin. apply list_elem_of_fmap in Hin as (sf & -> & Hsf).
      by apply list_elem_of_filter in Hsf as [? _].
    + by apply filter_names_NoDup.
  - intros k. unfold fields. rewrite map_app, Hnames, elem_of_app. split.
    + intros [Hk|Hk]; [by left|]. right.
      apply list_elem_of_fmap in Hk as (sf & -> & Hsf).
      apply list_elem_of_filter in Hsf as [_ Hsf].
      apply list_elem_of_fmap. eauto.
    + intros [Hk|Hk]; [by left|].
      destruct (decide (k ∈ map FieldMetadata.name cfs)) as [?|Hout]; [by left|].
      right. apply list_elem_of_fmap in Hk as (sf & -> & Hsf).
      apply list_elem_of_fmap. exists sf. split; [done|].
      apply list_elem_of_filter. done.
Qed.

(** ** Primary keys (C3, C7, C10) *)

Section PrimaryKeyFacts.
Context {realm : Realm}.
Import PrimaryKeyMetadata.

(** The check of one descriptor, as the loop of the validator makes it. *)
Lemma validate_loop_spec cls (pks : list PrimaryKeyMetadata.t) :
  (Forall (λ pk, truthy (pk_order pk) = true) pks
   ∧ foldM (λ _ pk,
        if negb (truthy (pk_order pk))
        then Err (IncompletePrimaryKeyOrderError (name pk) (Function_name cls))
        else Ok ()) pks () = Ok ())
  ∨ (∃ pre pk post,
       pks = pre ++ pk :: post
       ∧ Forall (λ pk, truthy (pk_order pk) = true) pre
       ∧ truthy (pk_order pk) = false
       ∧ foldM (λ _ pk,
            if negb (truthy (pk_order pk))
            then Err (IncompletePrimaryKeyOrderError (name pk) (Function_name cls))
            else Ok ()) pks ()
         = Err (IncompletePrimaryKeyOrderError (name pk) (Function_name cls))).
Proof.
  induction pks as [|pk pks IH]; simpl.
  - left. by split.
  - destruct (truthy (pk_order pk)) eqn:Hpk; simpl.
    + destruct IH as [[Hall Hok]|(pre & pk' & post & -> & Hpre & Hpk' & Herr)].
      * left. split; [by constructor | done].
      * right. exists (pk :: pre), pk', post. repeat split; try done.
        by constructor.
    + right. exists [], pk, pks. by repeat split.
Qed.

(** A single key, or none, is never checked. *)
Lemma validate_single pks cls :
  (length pks ≤ 1)%nat → validatePrimaryKeysOrder pks cls = Ok ().
Proof.
  intros Hlen. unfold validatePrimaryKeysOrder.
  destruct (1 <? length pks)%nat eqn:Hlt; [|done].
  apply Nat.ltb_lt in Hlt. lia.
Qed.

(** A composite key passes when every order is truthy. *)
Lemma validate_all_truthy pks cls :
  Forall (λ pk, truthy (pk_order pk) = true) pks →
  validatePrimaryKeysOrder pks cls = Ok ().
Proof.
  intros Hall. unfold validatePrimaryKeysOrder.
  destruct (1 <? length pks)%nat; [|done].
  destruct (validate_loop_spec cls pks)
    as [[_ Hok]|(pre & pk & post & -> & _ & Hpk & _)]; [done|].
  apply Forall_app in Hall as [_ Hall]. inversion Hall; congruence.
Qed.

(** A composite key fails at its first descriptor whose order is falsy,
    i.e. missing or zero. *)
Lemma validate_first_falsy pre pk post cls :
  (1 < length (pre ++ pk :: post))%nat →
  Forall (λ pk, truthy (pk_order pk) = true) pre →
  truthy (pk_order pk) = false →
  validatePrimaryKeysOrder (pre ++ pk :: post) cls
  = Err (IncompletePrimaryKeyOrderError (name pk) (Function_name cls)).
Proof.
  intros Hlen Hpre Hpk. unfold validatePrimaryKeysOrder.
  apply Nat.ltb_lt in Hlen. rewrite Hlen.
  destruct (validate_loop_spec cls (pre ++ pk :: post))
    as [[Hall _]|(pre' & pk' & post' & Heq & Hpre' & Hpk' & Herr)].
  - apply Forall_app in Hall as [_ Hall]. inversion Hall; congruence.
  - rewrite Herr. do 2 f_equal.
    clear Herr Hlen. revert pre' Heq Hpre'.
    induction Hpre as [|q pre Hq Hpre IH]; intros pre' Heq Hpre'.
    + destruct pre' as [|q' pre']; simpl in Heq.
      * by injection Heq as <- _.
      * injection Heq as <- _. inversion Hpre'; congruence.
    + destruct pre' as [|q' pre']; simpl in Heq.
      * injection Heq as <- _. congruence.
      * injection Heq as <- Heq. inversion Hpre'; subst. by eapply IH.
Qed.

Lemma validate_outcome pks cls :
  validatePrimaryKeysOrder pks cls = Ok ()
  ∨ ∃ pk, pk ∈ pks
          ∧ validatePrimaryKeysOrder pks cls
            = Err (IncompletePrimaryKeyOrderError (name pk) (Function_name cls)).
Proof.
  unfold validatePrimaryKeysOrder. destruct (1 <? length pks)%nat; [|by left].
  destruct (validate_loop_spec cls pks)
    as [[_ Hok]|(pre & pk & post & -> & _ & _ & Herr)]; [by left|].
  right. exists pk. split; [|done]. apply elem_of_app. right. left.
Qed.

(** The write loop raises nothing but a [TypeError]. *)
Lemma add_primary_key_outcome s pk s' r :
  add_primary_key s pk = (s', r) → r = Ok () ∨ r = Err TypeError.
Proof.
  unfold add_primary_key. destruct (node_set _ _ _ _); intros [= <- <-]; eauto.
Qed.

(** The seeding step [if (!(pk.name in targetSchema))]. *)
Lemma seed_key_other key node schema k :
  k ≠ key →
  prop_get k (if key_in key schema then schema else prop_set key node schema)
  = prop_get k schema.
Proof. intros Hk. destruct (key_in key schema); [done | by apply prop_get_set_ne]. Qed.



(** One descriptor leaves the other keys alone. *)
Lemma add_primary_key_other s pk s' r k :
  add_primary_key s pk = (s', r) → k ≠ name pk → prop_get k s' = prop_get k s.
Proof.
  unfold add_primary_key. intros Hrun Hk.
  destruct (node_set _ _ _ _) as [s1|] eqn:Hset; injection Hrun as <- <-.
  - rewrite (node_set_get_ne _ _ _ _ _ _ Hset) by done. by apply seed_key_other.
  - by apply seed_key_other.
Qed.

Lemma add_primary_keys_outcome pks s s' r :
  add_primary_keys pks s = (s', r) → r = Ok () ∨ r = Err TypeError.
Proof.
  revert s. induction pks as [|pk pks IH]; intros s; simpl.
  - intros [= <- <-]. by left.
  - destruct (add_primary_key s pk) as [s1 r1] eqn:Hstep.
    destruct (add_primary_key_outcome _ _ _ _ Hstep) as [->| ->].
    + apply IH.
    + intros [= <- <-]. by right.
Qed.


(** One descriptor whose name the schema only inherits: nothing is
    written to the schema. *)
Lemma add_primary_key_inherited s pk :
  prop_get (name pk) s = None → Object_prototype (name pk) = true →
  add_primary_key s pk = (s, Ok ()).
Proof.
  intros Hget Hobj. unfold add_primary_key, key_in. rewrite Hobj, orb_true_r.
  by rewrite node_set_inherited.
Qed.

Lemma add_primary_keys_other pks s s' k :
  add_primary_keys pks s = (s', Ok ()) → k ∉ map name pks →
  prop_get k s' = prop_get k s.
Proof.
  revert s. induction pks as [|pk pks IH]; intros s; simpl.
  - by intros [= <-].
  - destruct (add_primary_key s pk) as [s1 r1] eqn:Hstep.
    destruct (add_primary_key_outcome _ _ _ _ Hstep) as [->| ->]; [|done].
    intros Hrest Hk. apply not_elem_of_cons in Hk as [Hk Hk'].
    rewrite (IH _ Hrest Hk'). by eapply add_primary_key_other.
Qed.

End PrimaryKeyFacts.


(** C10: when the augmentation raises IncompletePrimaryKeyOrderError, the
    schema object it was given is as it was: the error can only come
    from the validation, which runs before the first write. *)
Theorem incomplete_order_leaves_schema {realm : Realm} self schema cls schema' field c :
  addPrimaryKeys self schema cls
    = (schema', Err (IncompletePrimaryKeyOrderError field c)) →
  schema' = schema.
Proof.
  unfold addPrimaryKeys.
  destruct (validatePrimaryKeysOrder _ _) eqn:Hval.
  - intros Hrun. by destruct (add_primary_keys_outcome _ _ _ _ Hrun).
  - by intros [= <- _].
Qed.

(** ** Nested arrays (C4) *)

Lemma links_length k : length (links k) = k.
Proof. unfold links. by rewrite length_map, length_seq. Qed.

Lemma links_S k : links (S k) = links k ++ [link_cell k].
Proof. unfold links. by rewrite seq_S, map_app. Qed.

Lemma links_lookup k i : (i < k)%nat → links k !! i = Some (link_cell i).
Proof.
  intros Hi. unfold links. rewrite list_lookup_fmap, lookup_seq_lt by done. done.
Qed.

Lemma nest_body_first :
  nest_body {| heap := []; head := None; prev := None; next := None |}
  = Some (nest_state 1).
Proof. reflexivity. Qed.

Lemma nest_body_step k : nest_body (nest_state (S k)) = Some (nest_state (S (S k))).
Proof.
  assert (Hk : ∀ (tl : Heap) c, (links (S k) ++ c :: tl) !! S k = Some c).
  { intros tl c. rewrite lookup_app_r by (rewrite links_length; lia).
    rewrite links_length. by replace (S k - S k)%nat with 0%nat by lia. }
  assert (Hins : ∀ (tl : Heap) c c',
            <[S k := c']> (links (S k) ++ c :: tl) = links (S k) ++ c' :: tl).
  { intros tl c c'. rewrite insert_app_r_alt by (rewrite links_length; lia).
    rewrite links_length. by replace (S k - S k)%nat with 0%nat by lia. }
  assert (H1 : cell_set (S k) "type" (SlotVal (VTag ARRAY)) (links (S k) ++ [[]])
               = Some (links (S k) ++ [[("type", SlotVal (VTag ARRAY))]])).
  { unfold cell_set. rewrite Hk. cbn [mbind option_bind]. by rewrite Hins. }
  assert (H2 : cell_set (S k) "items" (SlotRef (S (S k)))
                 ((links (S k) ++ [[("type", SlotVal (VTag ARRAY))]]) ++ [[]])
               = Some (links (S (S k)) ++ [[]])).
  { unfold cell_set. rewrite <- app_assoc. cbn [app]. rewrite Hk.
    cbn [mbind option_bind]. rewrite Hins.
    rewrite (links_S (S k)), <- app_assoc. done. }
  unfold nest_body, nest_state, alloc. cbn [head heap next prev].
  cbn [mbind option_bind]. rewrite H1. cbn [mbind option_bind].
  rewrite length_app, links_length. cbn [length].
  replace (S k + 1)%nat with (S (S k)) by lia.
  rewrite H2. cbn [mbind option_bind].
  rewrite (links_S (S k)), <- app_assoc. cbn [app]. rewrite Hk.
  cbn [mbind option_bind]. done.
Qed.

Lemma nest_loop_from k n :
  nest_loop n (Z.of_nat n) (nest_state (S k)) = Some (nest_state (S k + n)).
Proof.
  revert k. induction n as [|n IH]; intros k.
  - simpl. by rewrite Nat.add_0_r.
  - cbn [nest_loop]. assert ((Z.of_nat (S n) >? 0) = true) as -> by (apply Z.gtb_lt; lia).
    rewrite nest_body_step. cbn [mbind option_bind].
    replace (Z.of_nat (S n) - 1) with (Z.of_nat n) by lia.
    rewrite IH. do 2 f_equal. lia.
Qed.

Lemma nest_loop_init n :
  nest_loop (S n) (Z.of_nat (S n))
    {| heap := []; head := None; prev := None; next := None |}
  = Some (nest_state (S n)).
Proof.
  cbn [nest_loop]. assert ((Z.of_nat (S n) >? 0) = true) as -> by (apply Z.gtb_lt; lia).
  rewrite nest_body_first. cbn [mbind option_bind].
  replace (Z.of_nat (S n) - 1) with (Z.of_nat n) by lia.
  by rewrite nest_loop_from.
Qed.

Lemma final_heap_set k items :
  cell_set k "items" (SlotVal items) (links (S k) ++ [[]])
  = Some (final_heap k items).
Proof.
  unfold cell_set, final_heap. rewrite links_S, <- app_assoc. cbn [app].
  rewrite lookup_app_r by (rewrite links_length; lia).
  rewrite links_length. replace (k - k)%nat with 0%nat by lia.
  cbn [lookup list_lookup mbind option_bind].
  rewrite insert_app_r_alt by (rewrite links_length; lia).
  rewrite links_length. replace (k - k)%nat with 0%nat by lia. done.
Qed.

Lemma final_heap_length k items : length (final_heap k items) = S (S k).
Proof. unfold final_heap. rewrite length_app, links_length. simpl. lia. Qed.

Lemma final_heap_link k items i :
  (i < k)%nat → final_heap k items !! i = Some (link_cell i).
Proof.
  intros Hi. unfold final_heap. rewrite lookup_app_l by (rewrite links_length; lia).
  by apply links_lookup.
Qed.

Lemma final_heap_last k items :
  final_heap k items !! k
  = Some [("type", SlotVal (VTag ARRAY)); ("items", SlotVal items)].
Proof.
  unfold final_heap. rewrite lookup_app_r by (rewrite links_length; lia).
  rewrite links_length. by replace (k - k)%nat with 0%nat by lia.
Qed.

(** Reading the finished chain back from cell [i]. *)
Lemma reify_chain k items j i fuel :
  (i + j = k)%nat → (j < fuel)%nat →
  reify fuel (final_heap k items) i = Some (wrap (S j) items).
Proof.
  revert i fuel. induction j as [|j IH]; intros i fuel Hij Hfuel.
  - destruct fuel as [|fuel]; [lia|]. cbn [reify].
    replace i with k by lia. by rewrite final_heap_last.
  - destruct fuel as [|fuel]; [lia|]. cbn [reify].
    rewrite final_heap_link by lia. cbn [mbind option_bind link_cell].
    rewrite (IH (S i) fuel) by lia. done.
Qed.

(** The loop of [buildNestedArray] builds the nesting of [wrap]. *)
Lemma buildNestedArray_wrap items depth :
  0 < depth → buildNestedArray items depth = Ok (wrap (Z.to_nat depth) items).
Proof.
  intros Hd. unfold buildNestedArray.
  destruct (Z.to_nat depth) as [|n] eqn:Hn; [lia|].
  replace depth with (Z.of_nat (S n)) by lia.
  rewrite nest_loop_init. cbn [throwing mbind Res_bind nest_state prev heap head].
  cbn [pred]. rewrite final_heap_set.
  cbn [throwing mbind Res_bind nest_state prev heap head].
  rewrite final_heap_length.
  by rewrite (reify_chain n items n 0 (S (S n))) by lia.
Qed.

(** Without a turn of the loop [prev] is [undefined]. *)
Lemma buildNestedArray_no_turn items depth :
  depth ≤ 0 → buildNestedArray items depth = Err TypeError.
Proof.
  intros Hd. unfold buildNestedArray.
  replace (Z.to_nat depth) with 0%nat by lia. cbn [nest_loop].
  destruct (Z.gtb_spec depth 0); [lia | done].
Qed.

Lemma effective_depth_pos field : 0 < effective_depth field.
Proof.
  unfold effective_depth. destruct (FieldMetadata.arrayDepth field) as [d|]; [|lia].
  destruct (Z.eqb_spec d 0); simpl; [lia|]. destruct (Z.gtb_spec d 1); lia.
Qed.


(** ** The loop over the optional attributes *)

Lemma attach_rows_cons row rows opts t p node :
  attach_rows (row :: rows) opts t p node
  = attach_rows rows opts t p
      (if schemaOptionSupported opts t p row
       then prop_set (attrName row) (default VUndef (opts !! attrName row)) node
       else node).
Proof. reflexivity. Qed.

Lemma attach_rows_other rows opts t p node a :
  a ∉ map attrName rows →
  prop_get a (attach_rows rows opts t p node) = prop_get a node.
Proof.
  revert node. induction rows as [|row rows IH]; intros node Ha; [done|].
  apply not_elem_of_cons in Ha as [Ha Ha']. rewrite attach_rows_cons, IH by done.
  destruct (schemaOptionSupported opts t p row); [|done].
  by apply prop_get_set_ne.
Qed.



Section AttachFacts.
Context {realm : Realm}.

(** The loop, run on a schema whose node for the field is an object,
    rewrites that node and nothing else. *)
Lemma attach_loop_spec rows opts t p key schema node :
  prop_get key schema = Some (VObj node) →
  ∃ schema',
    foldM
      (λ schema opKey,
         if schemaOptionSupported opts t p opKey
         then throwing (node_set key (attrName opKey)
                          (default VUndef (opts !! attrName opKey)) schema)
         else Ok schema)
      rows schema = Ok schema'
    ∧ prop_get key schema' = Some (VObj (attach_rows rows opts t p node))
    ∧ (∀ k, k ≠ key → prop_get k schema' = prop_get k schema)
    ∧ length schema' = length schema.
Proof.
  revert schema node. induction rows as [|row rows IH]; intros schema node Hget.
  - exists schema. by repeat split.
  - cbn [foldM]. rewrite attach_rows_cons.
    destruct (schemaOptionSupported opts t p row).
    + rewrite (node_set_ok _ _ _ _ _ Hget). cbn [throwing mbind Res_bind].
      destruct (IH (prop_set key
                      (VObj (prop_set (attrName row)
                               (default VUndef (opts !! attrName row)) node)) schema)
                  (prop_set (attrName row)
                     (default VUndef (opts !! attrName row)) node))
        as (schema' & Hrun & Hnode & Hother & Hlen).
      { apply prop_get_set_eq. }
      exists schema'. split; [done|]. split; [done|]. split.
      * intros k Hk. rewrite Hother by done. by apply prop_get_set_ne.
      * rewrite Hlen. by eapply prop_set_same_length.
    + cbn [mbind Res_bind]. by apply IH.
Qed.

(** The loop, run on a schema that only inherits the name of the field,
    leaves the schema as it is. *)
Lemma attach_loop_inherited rows opts t p key schema :
  prop_get key schema = None → Object_prototype key = true →
  foldM
    (λ schema opKey,
       if schemaOptionSupported opts t p opKey
       then throwing (node_set key (attrName opKey)
                        (default VUndef (opts !! attrName opKey)) schema)
       else Ok schema)
    rows schema = Ok schema.
Proof.
  intros Hget Hobj. induction rows as [|row rows IH]; cbn [foldM]; [done|].
  destruct (schemaOptionSupported opts t p row); cbn [mbind Res_bind]; [|done].
  rewrite node_set_inherited by done. cbn [throwing mbind Res_bind]. done.
Qed.

Lemma attach_options_inherited p field schema :
  prop_get (FieldMetadata.name field) schema = None →
  Object_prototype (FieldMetadata.name field) = true →
  attach_options p field schema = Ok schema.
Proof.
  intros Hget Hobj. unfold attach_options.
  destruct (FieldMetadata.schemaFieldOptions field) as [opts|]; [|done].
  by apply attach_loop_inherited.
Qed.

Lemma attach_options_spec p field schema node :
  prop_get (FieldMetadata.name field) schema = Some (VObj node) →
  ∃ schema',
    attach_options p field schema = Ok schema'
    ∧ prop_get (FieldMetadata.name field) schema'
      = Some (VObj (attach_node field p node))
    ∧ (∀ k, k ≠ FieldMetadata.name field → prop_get k schema' = prop_get k schema)
    ∧ length schema' = length schema.
Proof.
  intros Hget. unfold attach_options, attach_node.
  destruct (FieldMetadata.schemaFieldOptions field) as [opts|].
  - by apply attach_loop_spec.
  - exists schema. by repeat split.
Qed.
End AttachFacts.


Lemma attach_node_other field p node a :
  a ∉ map attrName schemaOptions →
  prop_get a (attach_node field p node) = prop_get a node.
Proof.
  intros Ha. unfold attach_node.
  destruct (FieldMetadata.schemaFieldOptions field); [|done].
  by apply attach_rows_other.
Qed.


(** ** One field of the builder *)


Lemma nodes_ok_set key node schema :
  nodes_ok schema → nodes_ok (prop_set key (VObj node) schema).
Proof.
  intros Hok k v. destruct (decide (key = k)) as [<-|Hne].
  - rewrite prop_get_set_eq. intros [= <-]. eauto.
  - rewrite prop_get_set_ne by done. apply Hok.
Qed.

Lemma nodes_ok_frame key schema schema' :
  nodes_ok schema →
  (∀ v, prop_get key schema' = Some v → ∃ node, v = VObj node) →
  (∀ k, k ≠ key → prop_get k schema' = prop_get k schema) →
  nodes_ok schema'.
Proof.
  intros Hok Hkey Hother k v. destruct (decide (k = key)) as [->|Hne].
  - apply Hkey.
  - rewrite Hother by done. apply Hok.
Qed.

Section BuilderFacts.
Context {realm : Realm}.
Variable rec : ClassRef → bool → option TigrisDataTypes → Res Props.
Variable forCollection : bool.
Variable parentFieldType : option TigrisDataTypes.

#[local] Abbreviation build_case := (build_case rec forCollection parentFieldType).
#[local] Abbreviation build_field := (build_field rec forCollection parentFieldType).
#[local] Abbreviation case_node := (case_node rec forCollection parentFieldType).

(** The seeding step [if (!(key in schema)) schema[key] = { type }]: the
    field gets a node unless the schema only inherits its name. *)
Lemma seed_spec field schema :
  nodes_ok schema →
  let seeded :=
    if key_in (FieldMetadata.name field) schema then schema
    else prop_set (FieldMetadata.name field)
           (VObj [("type", VTag (FieldMetadata.type field))]) schema in
  (∀ k, k ≠ FieldMetadata.name field → prop_get k seeded = prop_get k schema)
  ∧ nodes_ok seeded
  ∧ ((prop_get (FieldMetadata.name field) seeded = Some (VObj (start_node field schema))
      ∧ (is_Some (prop_get (FieldMetadata.name field) schema)
         ∨ Object_prototype (FieldMetadata.name field) = false))
     ∨ (Object_prototype (FieldMetadata.name field) = true
        ∧ prop_get (FieldMetadata.name field) schema = None
        ∧ seeded = schema)).
Proof.
  intros Hok seeded. unfold seeded, start_node, key_in.
  destruct (prop_get (FieldMetadata.name field) schema) as [v|] eqn:Hget.
  - replace (prop_has (FieldMetadata.name field) schema) with true
      by (symmetry; apply prop_has_true; eauto).
    cbn [orb]. split; [done|]. split; [done|]. left.
    destruct (Hok _ _ Hget) as [node ->]. split; [done | left; eauto].
  - apply prop_has_false in Hget as Hhas. rewrite Hhas. cbn [orb].
    destruct (Object_prototype (FieldMetadata.name field)).
    + split; [done|]. split; [done|]. by right.
    + split; [intros k Hk; by apply prop_get_set_ne|].
      split; [by apply nodes_ok_set|]. left.
      split; [apply prop_get_set_eq | by right].
Qed.

(** The [switch]: it rewrites the node of the field and nothing else. *)
Lemma build_case_inv field schema schema' node0 :
  prop_get (FieldMetadata.name field) schema = Some (VObj node0) →
  build_case field schema = Ok schema' →
  ∃ base,
    case_node field node0 base
    ∧ prop_get (FieldMetadata.name field) schema' = Some (VObj base)
    ∧ (∀ k, k ≠ FieldMetadata.name field → prop_get k schema' = prop_get k schema).
Proof.
  intros Hget. unfold build_case, case_node, element_descriptor, passed_parent.
  destruct (FieldMetadata.type field) eqn:Htype.
  all: try (intros [= <-]; exists node0; by repeat split).
  - (* STRING *)
    destruct (FieldMetadata.schemaFieldOptions field) as [opts|];
      cbn [mbind option_bind]; [|intros [= <-]; exists node0; by repeat split].
    destruct (opts !! "maxLength") as [v|];
      [|intros [= <-]; exists node0; by repeat split].
    rewrite (node_set_ok _ _ _ _ _ Hget). cbn [throwing]. intros [= <-].
    eexists. split; [done|]. split; [apply prop_get_set_eq|].
    intros k Hk. by apply prop_get_set_ne.
  - (* ARRAY *)
    assert (Hwrap : ∀ elem, ∃ base,
              wrap (Z.to_nat (effective_depth field)) elem = VObj base).
    { intros elem. pose proof (effective_depth_pos field).
      destruct (Z.to_nat (effective_depth field)) eqn:Hd; [lia|]. simpl. eauto. }
    destruct (FieldMetadata.embedType field) as [|t|c]; cbn [mbind Res_bind].
    + rewrite buildNestedArray_wrap by apply effective_depth_pos.
      destruct (Hwrap (VObj [("type", VUndef)])) as [base Hbase].
      rewrite Hbase. cbn [mbind Res_bind]. intros [= <-]. exists base. split; [eauto|].
      split; [apply prop_get_set_eq|]. intros k Hk. by apply prop_get_set_ne.
    + rewrite buildNestedArray_wrap by apply effective_depth_pos.
      destruct (Hwrap (VObj [("type", VTag t)])) as [base Hbase].
      rewrite Hbase. cbn [mbind Res_bind]. intros [= <-]. exists base. split; [eauto|].
      split; [apply prop_get_set_eq|]. intros k Hk. by apply prop_get_set_ne.
    + destruct (rec c forCollection _) as [nested|e] eqn:Hrec; cbn [mbind Res_bind];
        try done.
      rewrite buildNestedArray_wrap by apply effective_depth_pos.
      destruct (Hwrap (VObj [("type", VObj nested)])) as [base Hbase].
      rewrite Hbase. cbn [mbind Res_bind]. intros [= <-]. exists base. split; [eauto 6|].
      split; [apply prop_get_set_eq|]. intros k Hk. by apply prop_get_set_ne.
  - (* OBJECT *)
    destruct (FieldMetadata.embedType field) as [|t|c];
      try (intros [= <-]; exists node0; by repeat split).
    destruct (rec c forCollection _) as [nested|e] eqn:Hrec; cbn [mbind Res_bind];
      try done.
    unfold keys_length. destruct (0 <? length nested)%nat eqn:Hlen.
    + cbn [mbind Res_bind]. intros [= <-]. exists [("type", VObj nested)].
      split; [exists nested; by rewrite Hlen|]. split; [apply prop_get_set_eq|].
      intros k Hk. by apply prop_get_set_ne.
    + intros [= <-]. exists node0.
      split; [exists nested; by rewrite Hlen|]. by split.
Qed.

(** The [switch], on a schema that only inherits the name of the field:
    an assignment of [schema[key]] gives the field a node, anything else
    leaves the schema as it is. *)
Lemma build_case_inherited field schema schema' :
  prop_get (FieldMetadata.name field) schema = None →
  Object_prototype (FieldMetadata.name field) = true →
  build_case field schema = Ok schema' →
  ∃ base,
    case_node field [("type", VTag (FieldMetadata.type field))] base
    ∧ (∀ k, k ≠ FieldMetadata.name field → prop_get k schema' = prop_get k schema)
    ∧ ((assigns field base
        ∧ prop_get (FieldMetadata.name field) schema' = Some (VObj base))
       ∨ (¬ assigns field base ∧ schema' = schema)).
Proof.
  intros Hget Hobj. unfold build_case, case_node, element_descriptor, passed_parent.
  assert (Hplain : ∀ t, FieldMetadata.type field = t → t ≠ ARRAY → t ≠ OBJECT →
            ¬ assigns field [("type", VTag t)]).
  { intros t Ht Ha Ho [Hx|[Hx _]]; congruence. }
  destruct (FieldMetadata.type field) eqn:Htype.
  all: try (intros [= <-]; eexists; split; [reflexivity|]; split; [done|];
            right; split; [by apply Hplain | done]).
  - (* STRING *)
    assert (Hno : ∀ base, ¬ assigns field base).
    { intros base [Hx|[Hx _]]; congruence. }
    destruct (FieldMetadata.schemaFieldOptions field) as [opts|];
      cbn [mbind option_bind];
      [|intros [= <-]; eexists; split; [reflexivity|]; split; [done|]; by right].
    destruct (opts !! "maxLength") as [v|];
      [|intros [= <-]; eexists; split; [reflexivity|]; split; [done|]; by right].
    rewrite node_set_inherited by done. cbn [throwing]. intros [= <-].
    eexists. split; [reflexivity|]. split; [done|]. by right.
  - (* ARRAY *)
    assert (Hyes : ∀ base, assigns field base) by (intros base; by left).
    assert (Hwrap : ∀ elem, ∃ base,
              wrap (Z.to_nat (effective_depth field)) elem = VObj base).
    { intros elem. pose proof (effective_depth_pos field).
      destruct (Z.to_nat (effective_depth field)) eqn:Hd; [lia|]. simpl. eauto. }
    destruct (FieldMetadata.embedType field) as [|t|c]; cbn [mbind Res_bind].
    + rewrite buildNestedArray_wrap by apply effective_depth_pos.
      destruct (Hwrap (VObj [("type", VUndef)])) as [base Hbase].
      rewrite Hbase. cbn [mbind Res_bind]. intros [= <-]. exists base. split; [eauto|].
      split; [intros k Hk; by apply prop_get_set_ne|].
      left. split; [done | apply prop_get_set_eq].
    + rewrite buildNestedArray_wrap by apply effective_depth_pos.
      destruct (Hwrap (VObj [("type", VTag t)])) as [base Hbase].
      rewrite Hbase. cbn [mbind Res_bind]. intros [= <-]. exists base. split; [eauto|].
      split; [intros k Hk; by apply prop_get_set_ne|].
      left. split; [done | apply prop_get_set_eq].
    + destruct (rec c forCollection _) as [nested|e] eqn:Hrec; cbn [mbind Res_bind];
        try done.
      rewrite buildNestedArray_wrap by apply effective_depth_pos.
      destruct (Hwrap (VObj [("type", VObj nested)])) as [base Hbase].
      rewrite Hbase. cbn [mbind Res_bind]. intros [= <-]. exists base. split; [eauto 6|].
      split; [intros k Hk; by apply prop_get_set_ne|].
      left. split; [done | apply prop_get_set_eq].
  - (* OBJECT *)
    assert (Hseed : ¬ assigns field [("type", VTag OBJECT)]).
    { intros [Hx|[_ [nested Hx]]]; congruence. }
    destruct (FieldMetadata.embedType field) as [|t|c];
      try (intros [= <-]; eexists; split; [reflexivity|]; split; [done|]; by right).
    destruct (rec c forCollection _) as [nested|e] eqn:Hrec; cbn [mbind Res_bind];
      try done.
    unfold keys_length. destruct (0 <? length nested)%nat eqn:Hlen.
    + cbn [mbind Res_bind]. intros [= <-]. exists [("type", VObj nested)].
      split; [exists nested; by rewrite Hlen|].
      split; [intros k Hk; by apply prop_get_set_ne|].
      left. split; [right; eauto | apply prop_get_set_eq].
    + intros [= <-]. eexists.
      split; [exists nested; by rewrite Hlen|]. split; [done|]. by right.
Qed.

(** One turn of the loop over the fields: the field gets its node, with
    the attributes of its option bag; or, when the schema only inherits
    its name and the [switch] assigns nothing, the schema stays as it
    is. *)
Lemma build_field_inv field schema schema' :
  nodes_ok schema →
  build_field schema field = Ok schema' →
  (∀ k, k ≠ FieldMetadata.name field → prop_get k schema' = prop_get k schema)
  ∧ nodes_ok schema'
  ∧ ∃ base,
      case_node field (start_node field schema) base
      ∧ ((prop_get (FieldMetadata.name field) schema'
            = Some (VObj (attach_node field parentFieldType base))
          ∧ (is_Some (prop_get (FieldMetadata.name field) schema)
             ∨ Object_prototype (FieldMetadata.name field) = false
             ∨ assigns field base))
         ∨ (Object_prototype (FieldMetadata.name field) = true
            ∧ prop_get (FieldMetadata.name field) schema = None
            ∧ ¬ assigns field base
            ∧ schema' = schema)).
Proof.
  intros Hok. unfold build_field.
  destruct (seed_spec field schema Hok) as (Hseed' & Hokseed & [[Hseed Hwhy]|Hseed]).
  - destruct (build_case field _) as [s1|e] eqn:Hcase; cbn [mbind Res_bind]; try done.
    destruct (build_case_inv _ _ _ _ Hseed Hcase) as (base & Hbase & Hget & Hother).
    destruct (attach_options_spec parentFieldType field s1 base Hget)
      as (s2 & Hrun & Hnode & Hother2 & _).
    rewrite Hrun. intros [= <-].
    assert (Hframe : ∀ k, k ≠ FieldMetadata.name field →
              prop_get k s2 = prop_get k schema).
    { intros k Hk. by rewrite Hother2, Hother, Hseed'. }
    split; [done|]. split.
    { apply (nodes_ok_frame (FieldMetadata.name field) schema); [done| |done].
      rewrite Hnode. intros v [= <-]. eauto. }
    exists base. split; [done|]. left. split; [done|].
    destruct Hwhy as [?|?]; eauto.
  - destruct Hseed as (Hobj & Hnone & Heq). rewrite Heq.
    destruct (build_case field schema) as [s1|e] eqn:Hcase; cbn [mbind Res_bind];
      try done.
    destruct (build_case_inherited _ _ _ Hnone Hobj Hcase)
      as (base & Hbase & Hother & [[Hassigns Hget]|[Hassigns ->]]).
    + destruct (attach_options_spec parentFieldType field s1 base Hget)
        as (s2 & Hrun & Hnode & Hother2 & _).
      rewrite Hrun. intros [= <-].
      assert (Hframe : ∀ k, k ≠ FieldMetadata.name field →
                prop_get k s2 = prop_get k schema).
      { intros k Hk. by rewrite Hother2, Hother. }
      split; [done|]. split.
      { apply (nodes_ok_frame (FieldMetadata.name field) schema); [done| |done].
      rewrite Hnode. intros v [= <-]. eauto. }
      exists base. split; [|left; eauto].
      unfold start_node. by rewrite Hnone.
    + rewrite attach_options_inherited by done. intros [= <-].
      split; [done|]. split; [done|]. exists base. split.
      * unfold start_node. by rewrite Hnone.
      * by right.
Qed.



End BuilderFacts.

(** ** Fuel *)

Section FuelFacts.
Context {realm : Realm}.

Lemma build_case_mono rec1 rec2 fc p field schema r :
  extends rec1 rec2 →
  build_case rec1 fc p field schema = r → r ≠ Err stack_overflow →
  build_case rec2 fc p field schema = r.
Proof.
  intros Hext. unfold build_case.
  destruct (FieldMetadata.type field); try done.
  - destruct (FieldMetadata.embedType field) as [|t|c]; try done.
    destruct (rec1 c fc _) as [nested|e] eqn:H1; cbn [mbind Res_bind].
    + rewrite (Hext _ _ _ _ H1) by done. done.
    + intros <- Hne. by rewrite (Hext _ _ _ _ H1).
  - destruct (FieldMetadata.embedType field) as [|t|c]; try done.
    destruct (rec1 c fc _) as [nested|e] eqn:H1; cbn [mbind Res_bind].
    + rewrite (Hext _ _ _ _ H1) by done. done.
    + intros <- Hne. by rewrite (Hext _ _ _ _ H1).
Qed.

Lemma build_field_mono rec1 rec2 fc p schema field r :
  extends rec1 rec2 →
  build_field rec1 fc p schema field = r → r ≠ Err stack_overflow →
  build_field rec2 fc p schema field = r.
Proof.
  intros Hext. unfold build_field.
  destruct (build_case rec1 fc p field _) as [s1|e] eqn:H1; cbn [mbind Res_bind].
  - rewrite (build_case_mono _ _ _ _ _ _ _ Hext H1) by done. done.
  - intros <- Hne. by rewrite (build_case_mono _ _ _ _ _ _ _ Hext H1).
Qed.

Lemma build_fields_mono rec1 rec2 fc p fields schema r :
  extends rec1 rec2 →
  foldM (build_field rec1 fc p) fields schema = r → r ≠ Err stack_overflow →
  foldM (build_field rec2 fc p) fields schema = r.
Proof.
  intros Hext. revert schema.
  induction fields as [|f fields IH]; intros schema; cbn [foldM]; [done|].
  destruct (build_field rec1 fc p schema f) as [s1|e] eqn:H1; cbn [mbind Res_bind].
  - rewrite (build_field_mono _ _ _ _ _ _ _ Hext H1) by done. apply IH.
  - intros <- Hne. by rewrite (build_field_mono _ _ _ _ _ _ _ Hext H1).
Qed.

(** A deeper stack does not change an outcome that a shallower one has
    reached. *)
Lemma buildTigrisSchema_mono self n m from fc p r :
  (n ≤ m)%nat →
  buildTigrisSchema self n from fc p = r → r ≠ Err stack_overflow →
  buildTigrisSchema self m from fc p = r.
Proof.
  revert m from fc p r. induction n as [|n IH]; intros m from fc p r Hle.
  - cbn [buildTigrisSchema]. by intros <-.
  - destruct m as [|m]; [lia|]. cbn [buildTigrisSchema].
    destruct (getSchemaFields self from fc) as [fields|e]; cbn [mbind Res_bind];
      [|done].
    apply build_fields_mono. intros c fc' p' r'. apply IH. lia.
Qed.

(** Two runs that do not use up the stack agree, whatever depth of stack
    they had. *)
Lemma buildTigrisSchema_fuel_irrelevant self n m from fc p :
  buildTigrisSchema self n from fc p ≠ Err stack_overflow →
  buildTigrisSchema self m from fc p ≠ Err stack_overflow →
  buildTigrisSchema self n from fc p = buildTigrisSchema self m from fc p.
Proof.
  intros Hn Hm. destruct (Nat.le_ge_cases n m) as [Hle|Hle].
  - symmetry. by eapply buildTigrisSchema_mono.
  - by eapply buildTigrisSchema_mono.
Qed.

(** ** Termination *)




End FuelFacts.

(** ** Nodes of ARRAY and OBJECT fields (C4, C6) *)

Lemma option_names_reserved a :
  a ∈ map attrName schemaOptions → a ≠ "type" ∧ a ≠ "items" ∧ a ≠ "maxLength".
Proof.
  intros Ha. repeat split; intros ->; revert Ha;
    apply (bool_decide_unpack (_ ∉ map attrName schemaOptions)); vm_compute; exact I.
Qed.




Section SchemaFacts.
Context {realm : Realm}.






End SchemaFacts.



(** ** The parent type seen by nested fields (C1) *)







Section NestingFacts.
Context {realm : Realm}.



End NestingFacts.



(** ** The class graph, from the declarations *)

Section GraphFacts.
Context {realm : Realm}.


End GraphFacts.

(** * Examples *)

Section Examples.
#[local] Existing Instance ecmascript.



(** *** Nesting of depth two *)


(** The nesting that C1 (amended) leaves out.  In [Box] the field [s]
    sits in an ARRAY that sits in an OBJECT; the builder tracks the
    OBJECT and attaches [searchIndex] to a field within a nested array,
    which the comment above [schemaOptionSupported] rules out. *)
Example array_below_object_not_tracked :
  ∃ schema node,
    buildTigrisSchema nesting 3 "Box" true None = Ok schema
    ∧ path_get ["o"; "type"; "a"; "items"; "type"; "s"] (VObj schema)
      = Some (VObj node)
    ∧ prop_has "searchIndex" node = true.
Proof.
  exists [("o", VObj [("type",
             VObj [("a", VObj [("type", VTag ARRAY);
                               ("items", VObj [("type",
                                  VObj [("s", VObj [("type", VTag STRING);
                                                    ("searchIndex", VBool true)])])])])])])],
         [("type", VTag STRING); ("searchIndex", VBool true)].
  repeat split; vm_compute; reflexivity.
Qed.


(** *** A three-dimensional array *)




(** *** An embedded class without fields *)





(** *** Collection and search metadata for one class *)

(** The bags [{ default: 1 }] and [{ default: 2, facet: true }] merge to
    [{ default: 2, facet: true }]. *)
Example merge_precedence :
  spread (Some {[ "default" := VNum 1 ]})
         (Some {[ "default" := VNum 2; "facet" := VBool true ]})
  = {[ "default" := VNum 2; "facet" := VBool true ]}.
Proof. vm_compute. reflexivity. Qed.

Lemma merged_options_union_witness :
  ∃ fields descriptor (merged : OptionBag),
    getSchemaFields docs "Doc" true = Ok fields
    ∧ fields !! 0%nat = Some descriptor
    ∧ FieldMetadata.name descriptor = "title"
    ∧ FieldMetadata.type descriptor = STRING
    ∧ FieldMetadata.embedType descriptor = NoEmbed
    ∧ FieldMetadata.arrayDepth descriptor = None
    ∧ FieldMetadata.schemaFieldOptions descriptor = Some merged
    ∧ ∀ k, merged !! k
           = match ({[ "default" := VNum 2; "facet" := VBool true ]} : OptionBag) !! k with
             | Some v => Some v
             | None => ({[ "default" := VNum 1 ]} : OptionBag) !! k
             end.
Proof.
  apply (merged_options_union docs "Doc" [] title_field [body_field]
           [] title_search [tags_search]).
  - reflexivity.
  - reflexivity.
  - reflexivity.
  - apply Forall_cons. split; [discriminate | apply Forall_nil_2].
  - repeat (apply Forall_cons; split; [discriminate|]). apply Forall_nil_2.
Defined.

(** The defect behind C5 and C8: the lookup of the search fields is an
    array.  A field named [length] that is declared as a collection
    field and as a search field is not merged: assigning it to the
    lookup sets the length of the array to an object, and the resolver
    throws, and with it [processCollection]. *)
Example length_field_rejected :
  getCollectionFieldsByTarget (storage sized) "Sized" = [length_field]
  ∧ getSearchFieldsByTarget (storage sized) "Sized" = [length_search]
  ∧ getSchemaFields sized "Sized" true = Err (RangeError "Invalid array length")
  ∧ processCollection sized 2 "Sized" = Err (RangeError "Invalid array length")
  ∧ processIndex sized 2 "Sized"
    = Ok {| doc_name := "sized_index";
            doc_schema := [("length", VObj [("type", VTag INT32); ("sort", VBool true)])] |}.
Proof. repeat split; vm_compute; reflexivity. Qed.

Lemma collection_fields_first_witness :
  ∃ fields,
    getSchemaFields docs "Doc" true = Ok fields
    ∧ map FieldMetadata.name fields = ["title"; "body"; "tags"]
    ∧ NoDup (map FieldMetadata.name fields).
Proof.
  assert (Hdistinct : ∀ a b : string, a ≠ b → NoDup [a; b]).
  { intros a b Hne. apply NoDup_cons. split; [|apply NoDup_singleton].
    apply not_elem_of_cons. split; [done | apply not_elem_of_nil]. }
  destruct (collection_fields_first docs "Doc")
    as (fields & merged & Hfields & _ & _ & Hnodup & _).
  - repeat (apply Forall_cons; split; [discriminate|]). apply Forall_nil_2.
  - apply Hdistinct. discriminate.
  - apply Hdistinct. discriminate.
  - exists fields. split; [exact Hfields|]. split; [|exact Hnodup].
    assert (Heq : Ok fields
                  = Ok [title_merged; body_field; tags_search]).
    { rewrite <- Hfields. vm_compute. reflexivity. }
    injection Heq as ->. reflexivity.
Defined.

(** *** Composite primary keys *)

(** C3: a composite key whose descriptors all carry an order is
    rejected when one of the orders is 0, with the error that reports a
    missing order; the same order on a single key is accepted and
    written to the schema. *)
Theorem composite_key_order_zero_rejected :
  Forall (λ pk, is_Some (pk_order pk)) (getPKsByTarget (storage keyed) "Zero")
  ∧ processCollection keyed 2 "Zero"
    = Err (IncompletePrimaryKeyOrderError "tenant" "Zero")
  ∧ processCollection keyed 2 "Single"
    = Ok {| doc_name := "single";
            doc_schema :=
              [("tenant",
                VObj [("type", VTag STRING);
                      ("primary_key",
                       VObj [("order", VNum 0); ("autoGenerate", VBool false)])])] |}.
Proof.
  split; [|split].
  - repeat constructor; eexists; reflexivity.
  - vm_compute. reflexivity.
  - vm_compute. reflexivity.
Qed.

(** A complete composite key, and one with a missing order. *)
Example composite_key_complete :
  processCollection keyed 2 "Complete"
  = Ok {| doc_name := "complete";
          doc_schema :=
            [("tenant",
              VObj [("type", VTag STRING);
                    ("primary_key",
                     VObj [("order", VNum 1); ("autoGenerate", VBool false)])]);
             ("id",
              VObj [("type", VTag INT64);
                    ("primary_key",
                     VObj [("order", VNum 2); ("autoGenerate", VBool true)])])] |}.
Proof. vm_compute. reflexivity. Qed.

Example composite_key_missing_order :
  processCollection keyed 2 "Missing"
  = Err (IncompletePrimaryKeyOrderError "tenant" "Missing").
Proof. vm_compute. reflexivity. Qed.


(** The defect behind C7: the test [pk.name in targetSchema] also finds
    the names that the schema inherits.  A primary key named [toString]
    is found on [Object.prototype], so it is not seeded, its
    [primary_key] lands on the inherited function, and the document does
    not mention the key. *)
Example inherited_key_not_seeded :
  getPKsByTarget (storage named) "Named" = [key "toString" STRING None (Some true)]
  ∧ processCollection named 2 "Named"
    = Ok {| doc_name := "named";
            doc_schema := [("label", VObj [("type", VTag STRING)])] |}.
Proof. split; vm_compute; reflexivity. Qed.

Lemma incomplete_order_leaves_schema_witness :
  (addPrimaryKeys keyed [("tenant", VObj [("type", VTag STRING)])] "Missing").1
  = [("tenant", VObj [("type", VTag STRING)])].
Proof.
  apply (incomplete_order_leaves_schema keyed
           [("tenant", VObj [("type", VTag STRING)])] "Missing" _ "tenant" "Missing").
  reflexivity.
Defined.
End Examples.

(** * Further properties *)

(** ** The errors of the builder *)

Section ErrorFacts.
Context {realm : Realm}.








End ErrorFacts.


(** ** Cyclic embedding *)


(** ** Outcomes of the entry points *)

Section EntryFacts.
Context {realm : Realm}.


End EntryFacts.




(** ** The keys of a schema *)

Section KeyFacts.
Context {A : Type}.
Implicit Types (o : list (string * A)) (k : string) (v : A).

Lemma prop_get_None_keys k o : prop_get k o = None ↔ k ∉ map fst o.
Proof.
  induction o as [|[k' v] o IH]; cbn [prop_get map fst].
  - split; [intros _; apply not_elem_of_nil | done].
  - rewrite not_elem_of_cons. destruct (decide (k' = k)) as [->|Hne].
    + split; [done | by intros [? _]].
    + rewrite IH. split; [by intros ?; split | by intros [_ ?]].
Qed.

Lemma prop_get_Some_keys k o : is_Some (prop_get k o) ↔ k ∈ map fst o.
Proof.
  destruct (prop_get k o) as [x|] eqn:Hget.
  - split; [intros _ | eauto].
    destruct (decide (k ∈ map fst o)) as [?|Hout]; [done|].
    apply prop_get_None_keys in Hout. congruence.
  - split; [by intros [? ?]|]. intros Hin. by apply prop_get_None_keys in Hget.
Qed.

Lemma keys_prop_replace k v o : map fst (prop_replace k v o) = map fst o.
Proof.
  induction o as [|[k' v'] o IH]; cbn [prop_replace map fst]; [done|].
  destruct (decide (k' = k)) as [->|Hne]; cbn [map fst]; [done | by rewrite IH].
Qed.


Lemma keys_prop_insert_sublist n k v o :
  map fst o `sublist_of` map fst (prop_insert n k v o).
Proof.
  induction o as [|[k' v'] o IH]; cbn [prop_insert map fst]; [apply sublist_nil_l|].
  destruct (array_index k') as [n'|]; [|by apply sublist_cons].
  destruct (n' <? n)%N; cbn [map fst]; [by apply sublist_skip | by apply sublist_cons].
Qed.

(** An assignment to a property that the object has keeps its keys. *)
Lemma keys_prop_set_present k v v' o :
  prop_get k o = Some v' → map fst (prop_set k v o) = map fst o.
Proof.
  intros Hget. unfold prop_set.
  replace (prop_has k o) with true by (symmetry; apply prop_has_true; eauto).
  apply keys_prop_replace.
Qed.

(** A new name that is not an array index becomes the last key. *)
Lemma keys_prop_set_new k v o :
  prop_get k o = None → array_index k = None →
  map fst (prop_set k v o) = map fst o ++ [k].
Proof. intros Hget Hidx. rewrite prop_set_new by done. by rewrite map_app. Qed.

(** An assignment keeps the keys that the object has, in their order. *)
Lemma keys_prop_set_sublist k v o : map fst o `sublist_of` map fst (prop_set k v o).
Proof.
  unfold prop_set. destruct (prop_has k o).
  - by rewrite keys_prop_replace.
  - destruct (array_index k).
    + apply keys_prop_insert_sublist.
    + rewrite map_app. by apply sublist_inserts_r.
Qed.

Lemma keys_prop_set_elem k k' v o :
  k' ∈ map fst (prop_set k v o) ↔ k' = k ∨ k' ∈ map fst o.
Proof.
  rewrite <- !prop_get_Some_keys. destruct (decide (k = k')) as [->|Hne].
  - rewrite prop_get_set_eq. split; [by left | eauto].
  - rewrite prop_get_set_ne by done. split; [by right | by intros [?|?]].
Qed.

End KeyFacts.

Section SchemaKeys.
Context {realm : Realm}.

Lemma node_set_keys key attr v schema schema' :
  node_set key attr v schema = Some schema' → keys schema' = keys schema.
Proof.
  unfold node_set. destruct (prop_get key schema) as [[]|] eqn:Hget; try done.
  - intros [= <-]. by eapply keys_prop_set_present.
  - destruct (Object_prototype key); [|done]. by intros [= <-].
Qed.







End SchemaKeys.



(** ** Every node has a type *)

Section TypedFacts.
Context {realm : Realm}.

Lemma case_node_typed rec fc p field node0 base :
  is_Some (prop_get "type" node0) →
  case_node rec fc p field node0 base →
  is_Some (prop_get "type" base).
Proof.
  intros Htyped. unfold case_node.
  destruct (FieldMetadata.type field); try (by intros ->).
  - intros ->. destruct (_ ≫= _); [|done]. by rewrite prop_get_set_ne.
  - intros (elem & _ & Hbase). pose proof (effective_depth_pos field).
    destruct (Z.to_nat (effective_depth field)) eqn:Hd; [lia|].
    cbn [wrap] in Hbase. injection Hbase as ->. by eexists.
  - destruct (FieldMetadata.embedType field); try (by intros ->).
    intros (nested & _ & ->). destruct (0 <? length nested)%nat; [by eexists | done].
Qed.

Lemma typed_nodes_ok schema : typed_nodes schema → nodes_ok schema.
Proof. intros Htyped k v Hv. destruct (Htyped k v Hv) as (node & -> & _). eauto. Qed.

Lemma build_field_typed rec fc p schema field schema' :
  typed_nodes schema →
  build_field rec fc p schema field = Ok schema' →
  typed_nodes schema'.
Proof.
  intros Htyped Hf.
  destruct (build_field_inv _ _ _ _ _ _ (typed_nodes_ok _ Htyped) Hf)
    as (Hother & _ & base & Hcase & Hget).
  assert (Hstart : is_Some (prop_get "type" (start_node field schema))).
  { unfold start_node.
    destruct (prop_get (FieldMetadata.name field) schema) as [v|] eqn:Hv; [|by eexists].
    destruct (Htyped _ _ Hv) as (node & -> & ?). done. }
  intros k v. destruct (decide (k = FieldMetadata.name field)) as [->|Hne].
  - destruct Hget as [[Hget _]|(_ & _ & _ & ->)]; [|apply Htyped].
    rewrite Hget. intros [= <-]. eexists. split; [done|].
    rewrite attach_node_other.
    + by eapply case_node_typed.
    + intros Ha. by destruct (option_names_reserved _ Ha) as (? & _ & _).
  - rewrite Hother by done. apply Htyped.
Qed.

Lemma build_fields_typed rec fc p fields schema final :
  typed_nodes schema →
  foldM (build_field rec fc p) fields schema = Ok final →
  typed_nodes final.
Proof.
  revert schema. induction fields as [|f fields IH]; intros schema Hs; cbn [foldM].
  - by intros [= <-].
  - destruct (build_field _ fc p schema f) as [s1|e] eqn:Hf; cbn [mbind Res_bind];
      try done.
    apply IH. by eapply build_field_typed.
Qed.
End TypedFacts.

(** X7: every value of a built schema is an object with a [type]
    property, whatever the field list (repeated names included). *)
Theorem schema_nodes_typed {realm : Realm} self fuel from fc p schema :
  buildTigrisSchema self fuel from fc p = Ok schema → typed_nodes schema.
Proof.
  destruct fuel as [|fuel]; [done|]. cbn [buildTigrisSchema].
  destruct (getSchemaFields self from fc) as [fields|e]; cbn [mbind Res_bind]; [|done].
  apply build_fields_typed. intros k v. done.
Qed.

(** ** The node of a field with a name of its own *)





(** ** Inside an array *)


Section PathFacts.
Context {realm : Realm}.





End PathFacts.


(** ** [buildNestedArray] on its own *)

(** X12: [buildNestedArray] returns [depth] nested wrappers around
    [items] for every positive depth, and throws a TypeError for a depth
    of zero or less, where the loop makes no turn and [prev] is still
    undefined.  The builder only calls it with a depth of at least 1. *)
Theorem buildNestedArray_outcome items depth :
  buildNestedArray items depth
  = (if decide (0 < depth) then Ok (wrap (Z.to_nat depth) items) else Err TypeError)
  ∧ ∀ field, 1 ≤ effective_depth field.
Proof.
  split.
  - destruct (decide (0 < depth)).
    + by apply buildNestedArray_wrap.
    + apply buildNestedArray_no_turn. lia.
  - intros field. pose proof (effective_depth_pos field). lia.
Qed.

(** ** Validation of the primary keys *)

(** X13: the validation of a composite key reports the first descriptor,
    in declaration order, whose order is missing or zero, together with
    the class name; it passes when there is none, and it passes without
    looking at the orders when there are fewer than two descriptors. *)
Theorem validation_reports_first pks cls :
  validatePrimaryKeysOrder pks cls
  = if (1 <? length pks)%nat then
      match find (λ pk, negb (truthy (pk_order pk))) pks with
      | Some pk =>
          Err (IncompletePrimaryKeyOrderError (PrimaryKeyMetadata.name pk)
                 (Function_name cls))
      | None => Ok ()
      end
    else Ok ().
Proof.
  unfold validatePrimaryKeysOrder. destruct (1 <? length pks)%nat; [|done].
  induction pks as [|pk pks IH]; cbn [foldM find]; [done|].
  destruct (negb (truthy (pk_order pk))); cbn [mbind Res_bind]; [done | exact IH].
Qed.

(** ** What the augmentation touches *)

Section AugmentationFacts.
Context {realm : Realm}.

(** One descriptor keeps the keys of the schema in their order and adds
    at most its own name. *)
Lemma add_primary_key_keys schema pk schema' :
  add_primary_key schema pk = (schema', Ok ()) →
  keys schema `sublist_of` keys schema'
  ∧ (∀ k, k ∈ keys schema' →
          k ∈ keys schema
          ∨ (k = PrimaryKeyMetadata.name pk ∧ Object_prototype k = false))
  ∧ (array_index (PrimaryKeyMetadata.name pk) = None →
     keys schema'
     = if decide (PrimaryKeyMetadata.name pk ∈ keys schema
                  ∨ Object_prototype (PrimaryKeyMetadata.name pk) = true)
       then keys schema
       else keys schema ++ [PrimaryKeyMetadata.name pk]).
Proof.
  unfold add_primary_key.
  destruct (node_set _ _ _ _) as [s1|] eqn:Hset; [|done]. intros [= <-].
  rewrite (node_set_keys _ _ _ _ _ Hset). unfold key_in.
  destruct (prop_has (PrimaryKeyMetadata.name pk) schema) eqn:Hhas; cbn [orb].
  { apply prop_has_true, prop_get_Some_keys in Hhas.
    split; [done|]. split; [by left|]. intros _. rewrite decide_True; [done | by left]. }
  apply prop_has_false in Hhas.
  destruct (Object_prototype (PrimaryKeyMetadata.name pk)) eqn:Hobj.
  { split; [done|]. split; [by left|]. intros _. rewrite decide_True; [done | by right]. }
  split; [apply keys_prop_set_sublist|]. split.
  - intros k Hk. apply keys_prop_set_elem in Hk as [->|Hk]; [by right | by left].
  - intros Hidx. unfold keys. rewrite keys_prop_set_new by done.
    rewrite decide_False; [done|]. apply prop_get_None_keys in Hhas.
    by intros [?|?].
Qed.

Lemma add_primary_keys_keys pks schema schema' :
  add_primary_keys pks schema = (schema', Ok ()) →
  keys schema `sublist_of` keys schema'
  ∧ (∀ k, k ∈ keys schema' →
          k ∈ keys schema
          ∨ (k ∈ map PrimaryKeyMetadata.name pks ∧ Object_prototype k = false))
  ∧ (Forall (λ k, array_index k = None) (map PrimaryKeyMetadata.name pks) →
     ∃ added,
       keys schema' = keys schema ++ added
       ∧ ∀ k, k ∈ added → k ∈ map PrimaryKeyMetadata.name pks ∧ k ∉ keys schema).
Proof.
  revert schema. induction pks as [|pk pks IH]; intros schema; cbn [add_primary_keys].
  - intros [= <-]. split; [done|]. split; [by left|]. intros _.
    exists []. split; [by rewrite app_nil_r|].
    intros k Hk. by apply elem_of_nil in Hk.
  - destruct (add_primary_key schema pk) as [s1 r1] eqn:Hstep.
    destruct (add_primary_key_outcome _ _ _ _ Hstep) as [->| ->]; [|done].
    intros Hrest. destruct (IH _ Hrest) as (Hsub & Hnew & Hkeys).
    destruct (add_primary_key_keys _ _ _ Hstep) as (Hsub1 & Hnew1 & Hkeys1).
    split; [by etrans|]. split.
    { intros k Hk. destruct (Hnew k Hk) as [Hk1|[Hk1 Hobj]].
      - destruct (Hnew1 k Hk1) as [?|[-> ?]]; [by left|]. right. split; [left | done].
      - right. split; [by right | done]. }
    cbn [map]. intros Hall. apply Forall_cons in Hall as [Hidx Hall].
    destruct (Hkeys Hall) as (added & Heq & Hadded).
    rewrite (Hkeys1 Hidx) in Heq, Hadded.
    destruct (decide (_ ∨ _)) as [Hin|Hout].
    + exists added. split; [done|]. intros k Hk.
      destruct (Hadded k Hk) as [? ?]. split; [by right | done].
    + exists (PrimaryKeyMetadata.name pk :: added). split.
      { by rewrite Heq, <- app_assoc. }
      intros k Hk. apply elem_of_cons in Hk as [->|Hk].
      { split; [left|]. intros ?. apply Hout. by left. }
      destruct (Hadded k Hk) as [? Hnot]. split; [by right|].
      intros Hin. apply Hnot. apply elem_of_app. by left.
Qed.
End AugmentationFacts.

(** X14: a completed primary-key augmentation leaves every field that no
    descriptor names as it was and keeps the existing keys of the schema
    in their order; a new key is the name of a descriptor, and is not a
    name that a schema inherits.  When no descriptor is named by an
    array index, the new keys are appended.  (A key that is an array
    index is listed with the other indices, before every other key.) *)
Theorem augmentation_frame {realm : Realm} self schema cls schema' :
  addPrimaryKeys self schema cls = (schema', Ok ()) →
  let names := map PrimaryKeyMetadata.name (getPKsByTarget (storage self) cls) in
  (∀ k, k ∉ names → prop_get k schema' = prop_get k schema)
  ∧ keys schema `sublist_of` keys schema'
  ∧ (∀ k, k ∈ keys schema' →
          k ∈ keys schema ∨ (k ∈ names ∧ Object_prototype k = false))
  ∧ (Forall (λ k, array_index k = None) names →
     ∃ added,
       keys schema' = keys schema ++ added
       ∧ ∀ k, k ∈ added → k ∈ names ∧ k ∉ keys schema).
Proof.
  unfold addPrimaryKeys. destruct (validatePrimaryKeysOrder _ _); try done.
  intros Hrun. split.
  - intros k Hk. by eapply add_primary_keys_other.
  - by apply add_primary_keys_keys.
Qed.

(** ** Fields without a counterpart *)



(** ** Index schemas and collection metadata *)

Section IndexFacts.
Context {realm : Realm}.

Lemma build_field_ext rec1 rec2 fc p schema field :
  (∀ c p', rec1 c fc p' = rec2 c fc p') →
  build_field rec1 fc p schema field = build_field rec2 fc p schema field.
Proof.
  intros Hrec. unfold build_field, build_case.
  destruct (FieldMetadata.type field); try done.
  - destruct (FieldMetadata.embedType field); try done. by rewrite Hrec.
  - destruct (FieldMetadata.embedType field); try done. by rewrite Hrec.
Qed.

Lemma build_fields_ext rec1 rec2 fc p fields schema :
  (∀ c p', rec1 c fc p' = rec2 c fc p') →
  foldM (build_field rec1 fc p) fields schema
  = foldM (build_field rec2 fc p) fields schema.
Proof.
  intros Hrec. revert schema.
  induction fields as [|f fields IH]; intros schema; cbn [foldM]; [done|].
  rewrite (build_field_ext rec1 rec2) by done.
  destruct (build_field rec2 fc p schema f); cbn [mbind Res_bind]; [apply IH|done].
Qed.
End IndexFacts.

(** X16: an index schema depends on the search-field metadata alone: two
    stores that hold the same search fields and the same index entry
    give the same outcome of [processIndex], whatever collection fields
    and primary keys they hold. *)
Theorem index_ignores_collection_metadata {realm : Realm} self1 self2 fuel cls :
  (∀ c, getSearchFieldsByTarget (storage self1) c
        = getSearchFieldsByTarget (storage self2) c) →
  getIndexByTarget (storage self1) cls = getIndexByTarget (storage self2) cls →
  processIndex self1 fuel cls = processIndex self2 fuel cls.
Proof.
  intros Hsearch Hindex.
  assert (Hbuild : ∀ n from p,
            buildTigrisSchema self1 n from false p
            = buildTigrisSchema self2 n from false p).
  { induction n as [|n IH]; intros from p; [done|]. cbn [buildTigrisSchema].
    rewrite !getSchemaFields_index, Hsearch. cbn [mbind Res_bind].
    by apply build_fields_ext. }
  unfold processIndex. rewrite Hindex.
  destruct (getIndexByTarget (storage self2) cls); cbn [throwing mbind Res_bind]; [|done].
  by rewrite Hbuild.
Qed.

(** ** Attributes and depth *)



(** ** Names that are inherited *)

(** X19: in collection mode a class with a search field named [length]
    has no schema: the resolver throws a RangeError when it assigns the
    field to the lookup array, whatever else the class declares, and so
    do the builder and [processCollection]; in index mode the lookup is
    not built and the same class resolves to its search fields. *)
Theorem length_search_field_throws {realm : Realm} self fuel cls collection :
  Exists (λ sf, FieldMetadata.name sf = "length")
         (getSearchFieldsByTarget (storage self)
            (CollectionMetadata.target collection)) →
  getCollectionByTarget (storage self) cls = Some collection →
  let target := CollectionMetadata.target collection in
  getSchemaFields self target true = Err (RangeError "Invalid array length")
  ∧ (∀ p, buildTigrisSchema self (S fuel) target true p
          = Err (RangeError "Invalid array length"))
  ∧ processCollection self (S fuel) cls = Err (RangeError "Invalid array length")
  ∧ getSchemaFields self target false
    = Ok (getSearchFieldsByTarget (storage self) target).
Proof.
  intros Hex Hreg target.
  pose proof (getSchemaFields_length self target Hex) as Hfields.
  split; [done|]. split; [|split].
  - intros p. cbn [buildTigrisSchema]. by rewrite Hfields.
  - unfold processCollection. rewrite Hreg. cbn [throwing mbind Res_bind].
    fold target. cbn [buildTigrisSchema]. by rewrite Hfields.
  - apply getSchemaFields_index.
Qed.

(** X20: a primary key whose name the schema inherits from
    [Object.prototype], and does not have as a key of its own, is not
    written: the augmentation by that one descriptor leaves the schema
    as it is. *)
Theorem inherited_primary_key_skipped {realm : Realm} self schema cls pk :
  getPKsByTarget (storage self) cls = [pk] →
  Object_prototype (PrimaryKeyMetadata.name pk) = true →
  prop_get (PrimaryKeyMetadata.name pk) schema = None →
  addPrimaryKeys self schema cls = (schema, Ok ()).
Proof.
  intros Hpks Hobj Hnone. unfold addPrimaryKeys. rewrite Hpks.
  rewrite validate_single by (cbn [length]; lia).
  cbn [add_primary_keys]. by rewrite add_primary_key_inherited.
Qed.

(** * Further examples *)

Section FurtherExamples.
#[local] Existing Instance ecmascript.




Lemma docs_build : buildTigrisSchema docs 1 "Doc" true None = Ok docs_schema.
Proof. reflexivity. Qed.







Lemma keyed_augmented :
  addPrimaryKeys keyed [("tenant", VObj [("type", VTag STRING)])] "Complete"
  = ([("tenant",
       VObj [("type", VTag STRING);
             ("primary_key", VObj [("order", VNum 1); ("autoGenerate", VBool false)])]);
      ("id",
       VObj [("type", VTag INT64);
             ("primary_key", VObj [("order", VNum 2); ("autoGenerate", VBool true)])])],
     Ok ()).
Proof. reflexivity. Qed.







(** The keys of a schema whose fields are named by array indices and by
    members of [Array.prototype]: the indices come first, in numeric
    order. *)
Example index_names_listed_first :
  map FieldMetadata.name <$> getSchemaFields named "Listing" true
    = Ok ["keys"; "7"; "price"; "2"]
  ∧ keys <$> buildTigrisSchema named 1 "Listing" true None
    = Ok ["2"; "7"; "keys"; "price"].
Proof. split; vm_compute; reflexivity. Qed.

Lemma schema_nodes_typed_witness : typed_nodes docs_schema.
Proof. exact (schema_nodes_typed docs 1 "Doc" true None docs_schema docs_build). Defined.


(** The fields of [Shadow] are named like members of
    [Object.prototype]: only the ARRAY field, which the [switch]
    assigns, is emitted; the string field and its default, and the
    boolean field, are not. *)
Example inherited_names_dropped :
  buildTigrisSchema named 1 "Shadow" true None
  = Ok [("valueOf", VObj [("type", VTag ARRAY);
                          ("items", VObj [("type", VTag INT32)])])].
Proof. vm_compute. reflexivity. Qed.




Lemma augmentation_frame_witness :
  ∃ added,
    keys (addPrimaryKeys keyed [("tenant", VObj [("type", VTag STRING)])] "Complete").1
    = ["tenant"] ++ added
    ∧ ∀ k, k ∈ added → k ∈ ["tenant"; "id"] ∧ k ∉ ["tenant"].
Proof.
  destruct (augmentation_frame keyed [("tenant", VObj [("type", VTag STRING)])]
              "Complete" _ keyed_augmented) as (_ & _ & _ & Hadded).
  rewrite keyed_augmented.
  apply Hadded. repeat (apply Forall_cons; split; [done|]). apply Forall_nil_2.
Defined.

(** A primary key named by an array index is listed before the keys
    that the schema had. *)
Example index_key_listed_first :
  keys (add_primary_key [("tenant", VObj [("type", VTag STRING)])]
          (key "5" INT32 None None)).1
  = ["5"; "tenant"].
Proof. vm_compute. reflexivity. Qed.


(** A collection field named like a member of [Array.prototype] finds
    that member in the lookup and is emitted with an empty option bag
    instead of none. *)
Example array_member_name_gets_bag :
  getCollectionFieldsByTarget (storage named) "Listing" !! 0%nat
    = Some (scalar "keys" STRING None)
  ∧ (λ fields, fields !! 0%nat) <$> getSchemaFields named "Listing" true
    = Ok (Some (scalar "keys" STRING (Some ∅))).
Proof. split; vm_compute; reflexivity. Qed.

Lemma index_ignores_collection_metadata_witness :
  processIndex docs 1 "Doc" = processIndex docs_search_only 1 "Doc".
Proof.
  apply (index_ignores_collection_metadata docs docs_search_only 1 "Doc");
    [intros c|]; reflexivity.
Defined.



Lemma length_search_field_throws_witness :
  getSchemaFields sized "Sized" true = Err (RangeError "Invalid array length")
  ∧ (∀ p, buildTigrisSchema sized 1 "Sized" true p
          = Err (RangeError "Invalid array length"))
  ∧ processCollection sized 1 "Sized" = Err (RangeError "Invalid array length")
  ∧ getSchemaFields sized "Sized" false = Ok [length_search].
Proof.
  apply (length_search_field_throws sized 0 "Sized" (CollectionMetadata.mk "Sized" "sized"));
    [|reflexivity].
  apply Exists_cons. by left.
Defined.

Lemma inherited_primary_key_skipped_witness :
  addPrimaryKeys named [("label", VObj [("type", VTag STRING)])] "Named"
  = ([("label", VObj [("type", VTag STRING)])], Ok ()).
Proof.
  apply (inherited_primary_key_skipped named _ "Named"
           (key "toString" STRING None (Some true))); reflexivity.
Defined.
End FurtherExamples.
